(** * confy: a caching accessor for Vault secrets

    A shallow embedding of [confy.go]: the client [confyImpl], its
    [Get] / [GetOrDefault] / [Close] / [Watch] operations, the [value]
    wrapper with its coercions, [NewVaultClient], and the helper
    functions of Go's [strings] and [strconv] packages that they use.

    Effects are written as explicit state passing.  The process
    environment is an argument of [Get], and so is the Unicode case
    mapping that [strings.ToUpper] applies to text that is not ASCII
    (the Unicode tables are not part of this file); the Vault client
    and the TTL cache are records held by the client, each carrying
    the counters and logs that make their use observable. *)

From Stdlib Require Import ZArith Ascii String.
From stdpp Require Import base option list gmap strings.

Set Warnings "-register-all".
Local Open Scope string_scope.

(** ** Go's dynamic values

    [any] as decoded from a Vault response: JSON null, strings,
    booleans, [json.Number] (kept as its decimal text), nested objects
    ([map[string]any]) and arrays ([[]any]).  A nil map and an empty map
    are both the empty [gmap]. *)

Inductive any : Type :=
| ANil
| AString (s : string)
| ABool (b : bool)
| ANumber (n : string)
| AMap (m : gmap string any)
| ASlice (l : list any).

(** A document: what Vault stores under one key. *)
Abbreviation document := (gmap string any).

(** ** The [strings] package, as far as [Get] uses it *)

Module strings.

(** [strings.HasPrefix(s, prefix)] *)
Fixpoint HasPrefix (s prefix : string) : bool :=
  match prefix, s with
  | EmptyString, _ => true
  | String p prefix', String c s' =>
      if Ascii.eqb c p then HasPrefix s' prefix' else false
  | String _ _, EmptyString => false
  end.

(** [s[n:]] for [n <= len(s)] *)
Fixpoint sliceFrom (n : nat) (s : string) : string :=
  match n, s with
  | O, _ => s
  | S n', String _ s' => sliceFrom n' s'
  | S _, EmptyString => EmptyString
  end.

(** [s[:n]] for [n <= len(s)] *)
Fixpoint sliceTo (n : nat) (s : string) : string :=
  match n, s with
  | O, _ => EmptyString
  | S n', String c s' => String c (sliceTo n' s')
  | S _, EmptyString => EmptyString
  end.

(** [strings.TrimPrefix(s, prefix)]: [s] without the leading [prefix],
    or [s] itself when it does not start with [prefix]. *)
Definition TrimPrefix (s prefix : string) : string :=
  if HasPrefix s prefix then sliceFrom (String.length prefix) s else s.

(** [strings.Index(s, substr)]: the position of the first occurrence
    of [substr] in [s]; [None] stands for Go's [-1]. *)
Fixpoint Index (s substr : string) : option nat :=
  if HasPrefix s substr then Some O
  else match s with
       | EmptyString => None
       | String _ s' => S <$> Index s' substr
       end.

(** The loop of [genSplit]: at most [n] cuts, the rest of the string
    is the last element. *)
Fixpoint splitLoop (n : nat) (s sep : string) : list string :=
  match n with
  | O => [s]
  | S n' =>
      match Index s sep with
      | None => [s]
      | Some m =>
          sliceTo m s :: splitLoop n' (sliceFrom (m + String.length sep) s) sep
      end
  end.

(** [strings.SplitN(s, sep, n)] for a non-empty [sep] and [n >= 0]:
    [n = 0] gives nil, and [n] is capped at [len(s) + 1]. *)
Definition SplitN (s sep : string) (n : nat) : list string :=
  match n with
  | O => []
  | S _ => splitLoop (Nat.min n (String.length s + 1) - 1) s sep
  end.

(** ASCII upper-casing of one byte. *)
Definition upperByte (c : ascii) : ascii :=
  let n := nat_of_ascii c in
  if (97 <=? n)%nat && (n <=? 122)%nat then ascii_of_nat (n - 32) else c.

Fixpoint mapBytes (f : ascii -> ascii) (s : string) : string :=
  match s with
  | EmptyString => EmptyString
  | String c s' => String (f c) (mapBytes f s')
  end.

(** Every byte is below [utf8.RuneSelf]. *)
Fixpoint isASCII (s : string) : bool :=
  match s with
  | EmptyString => true
  | String c s' => (nat_of_ascii c <? 128)%nat && isASCII s'
  end.

(** [strings.ToUpper(s)].  Text that is ASCII throughout takes the fast
    path and is upper-cased byte by byte.  Any other text goes through
    [strings.Map(unicode.ToUpper, s)], which decodes runes and consults
    the Unicode tables and may change the number of bytes; that mapping
    is the parameter [unicodeUpper]. *)
Definition ToUpper (unicodeUpper : string -> string) (s : string) : string :=
  if isASCII s then mapBytes upperByte s else unicodeUpper s.

End strings.

(** [var replacer = strings.NewReplacer("/", "_", "#", "_")]: every old
    string is a single byte, so [Replace] maps byte by byte. *)
Definition replacerByte (c : ascii) : ascii :=
  if Ascii.eqb c "/" then "_"%char
  else if Ascii.eqb c "#" then "_"%char
  else c.

Definition replacer_Replace (s : string) : string :=
  strings.mapBytes replacerByte s.

(** ** Values, errors and outcomes *)

(** [type value struct { val any }] *)
Record value : Type := { val : any }.

(** The [Value] interface: a pointer to a [value], or nil. *)
Abbreviation Value := (option value).

(** Go's [error]: its message and, for [fmt.Errorf] with [%w], the
    message of the wrapped cause. *)
Record error : Type := { Error : string; Unwrap : option string }.

Definition errors_New (text : string) : error :=
  {| Error := text; Unwrap := None |}.

(** What a call does: it returns, or it panics (an index out of range). *)
Inductive outcome (A : Type) : Type :=
| Return (a : A)
| Panic (msg : string).
Arguments Return {A} a.
Arguments Panic {A} msg.

(** [func (v *value) Raw() any] *)
Definition Raw (v : value) : any := val v.

(** [func (v *value) Data() (map[string]any, bool)]: the type assertion
    [v.val.(map[string]any)]; on failure the map is nil. *)
Definition Data (v : value) : document * bool :=
  match val v with
  | AMap m => (m, true)
  | _ => (∅, false)
  end.

(** ** The collaborators: environment, Vault client, TTL cache *)

(** [os.Getenv(key)]: the empty string when the variable is unset. *)
Definition os_Getenv (env : gmap string string) (key : string) : string :=
  default "" (env !! key).

(** [context.Context], as far as a Vault request can observe it. *)
Record Context : Type := { ctxDone : bool }.

Definition context_Background : Context := {| ctxDone := false |}.

(** The answer of [c.RawClient().KVv1("secret").Get(ctx, key)]. *)
Inductive kvResponse : Type :=
| KvSecret (respData : document)
| KvError (err : string).

(** [*vault.Client]: the store it talks to, the keys requested from it
    so far (oldest first), and how often it was closed. *)
Record vaultClient : Type := {
  kvGet : Context -> string -> kvResponse;
  requests : list string;
  closeCalls : nat
}.

Definition client_KVv1_Get (cl : vaultClient) (ctx : Context) (key : string)
  : kvResponse * vaultClient :=
  (kvGet cl ctx key,
   {| kvGet := kvGet cl; requests := requests cl ++ [key]; closeCalls := closeCalls cl |}).

Definition client_Close (cl : vaultClient) : vaultClient :=
  {| kvGet := kvGet cl; requests := requests cl; closeCalls := S (closeCalls cl) |}.

(** [time.Duration]: nanoseconds. *)
Definition Second : Z := 1000000000.
Definition Minute : Z := 60 * Second.

Definition DefaultCacheTTL : Z := 5 * Minute.
Definition MinimumCacheTTL : Z := 30 * Second.

(** [*ttlcache.Cache[string, map[string]any]]: the unexpired items, the
    configured TTL, whether the expiration goroutine runs, how often
    [Stop] was called, and the cache's own metrics (lookups that found
    an item, lookups that did not).  Expiration itself is the library's
    background activity; here it is the step [cache_expire]. *)
Record ttlCache : Type := {
  items : gmap string document;
  cacheTTL : Z;
  started : bool;
  stopCalls : nat;
  hits : nat;
  misses : nat
}.

Definition ttlcache_New (ttl : Z) : ttlCache :=
  {| items := ∅; cacheTTL := ttl; started := false; stopCalls := 0;
     hits := 0; misses := 0 |}.

Definition cache_Start (ca : ttlCache) : ttlCache :=
  {| items := items ca; cacheTTL := cacheTTL ca; started := true;
     stopCalls := stopCalls ca; hits := hits ca; misses := misses ca |}.

Definition cache_Stop (ca : ttlCache) : ttlCache :=
  {| items := items ca; cacheTTL := cacheTTL ca; started := false;
     stopCalls := S (stopCalls ca); hits := hits ca; misses := misses ca |}.

Definition cache_Set (ca : ttlCache) (key : string) (data : document) : ttlCache :=
  {| items := <[key := data]> (items ca); cacheTTL := cacheTTL ca;
     started := started ca; stopCalls := stopCalls ca;
     hits := hits ca; misses := misses ca |}.

Definition cache_expire (ca : ttlCache) (key : string) : ttlCache :=
  {| items := delete key (items ca); cacheTTL := cacheTTL ca;
     started := started ca; stopCalls := stopCalls ca;
     hits := hits ca; misses := misses ca |}.

Definition cache_hit (ca : ttlCache) : ttlCache :=
  {| items := items ca; cacheTTL := cacheTTL ca; started := started ca;
     stopCalls := stopCalls ca; hits := S (hits ca); misses := misses ca |}.

Definition cache_miss (ca : ttlCache) : ttlCache :=
  {| items := items ca; cacheTTL := cacheTTL ca; started := started ca;
     stopCalls := stopCalls ca; hits := hits ca; misses := S (misses ca) |}.

(** What a lookup through a loader leaves behind: the item (nil when
    absent), the cache, the Vault client and the error bucket. *)
Record loaded : Type := {
  item : option document;
  cacheAfter : ttlCache;
  clientAfter : vaultClient;
  errBucket : option error
}.

(** [createLoader(ctx, c, e)]: ask Vault for [key]; on failure store the
    wrapped error in [*e] and return nil, otherwise [cache.Set] the
    response data and return the new item. *)
Definition createLoader (ctx : Context) (cl : vaultClient) (ca : ttlCache) (key : string)
  : loaded :=
  match client_KVv1_Get cl ctx key with
  | (KvError err, cl') =>
      {| item := None; cacheAfter := ca; clientAfter := cl';
         errBucket := Some {| Error := "could not get secret from Vault: " +:+ err;
                              Unwrap := Some err |} |}
  | (KvSecret data, cl') =>
      {| item := Some data; cacheAfter := cache_Set ca key data; clientAfter := cl';
         errBucket := None |}
  end.

(** [cache.Get(key, ttlcache.WithLoader(loader))]: an unexpired item is
    returned as it is and counted as a hit; otherwise the lookup is
    counted as a miss and the loader runs. *)
Definition cache_Get (ca : ttlCache) (cl : vaultClient) (key : string)
    (loader : vaultClient -> ttlCache -> string -> loaded) : loaded :=
  match items ca !! key with
  | Some data =>
      {| item := Some data; cacheAfter := cache_hit ca; clientAfter := cl;
         errBucket := None |}
  | None => loader cl (cache_miss ca) key
  end.

(** ** The client *)

(** [type confyImpl struct]. The cache and the Vault client are held by
    pointer in Go; here every operation returns the client it leaves
    behind. *)
Record confyImpl : Type := {
  cache : ttlCache;
  envOverride : bool;
  client : vaultClient;
  ttl : Z;
  closed : bool
}.

(** [func new(client, cacheTTL, envOverride) Confy] *)
Definition new (cl : vaultClient) (cacheTTL : Z) (envOverride : bool) : confyImpl :=
  let cache := ttlcache_New cacheTTL in
  let cache := cache_Start cache in
  {| cache := cache; envOverride := envOverride; client := cl; ttl := cacheTTL;
     closed := false |}.

(** [func New(client, cacheTTL, envOverride) Confy] *)
Definition New (cl : vaultClient) (cacheTTL : Z) (envOverride : bool) : confyImpl :=
  let cacheTTL := if (cacheTTL =? 0)%Z then DefaultCacheTTL else cacheTTL in
  let cacheTTL := if (cacheTTL <? MinimumCacheTTL)%Z then MinimumCacheTTL else cacheTTL in
  new cl cacheTTL envOverride.

(** [func (c *confyImpl) Close()] *)
Definition Close (c : confyImpl) : confyImpl :=
  if negb (closed c) then
    {| cache := cache_Stop (cache c); envOverride := envOverride c;
       client := client_Close (client c); ttl := ttl c; closed := true |}
  else c.

(** Lines 184-185 of [Get]: the name of the overriding variable. *)
Definition envKey (unicodeUpper : string -> string) (path : string) : string :=
  strings.ToUpper unicodeUpper (replacer_Replace path).

(** Lines 183-189 of [Get]: the overriding value, if the client looks
    for one and the environment holds a non-empty one. *)
Definition override (unicodeUpper : string -> string) (c : confyImpl)
    (env : gmap string string) (path : string) : option string :=
  if envOverride c then
    let envValue := os_Getenv env (envKey unicodeUpper path) in
    if negb (String.eqb envValue "") then Some envValue else None
  else None.

(** Lines 191-196 of [Get]: document key and field name.  [None] is the
    run-time panic of [parts[0]] on an empty slice. *)
Definition splitPath (path : string) : option (string * string) :=
  let parts := strings.SplitN path "#" 2 in
  match parts !! 0%nat with
  | None => None
  | Some path =>
      let fieldName :=
        if (1 <? length parts)%nat then default "" (parts !! 1%nat) else "" in
      Some (path, fieldName)
  end.

(** Path resolution as [Get] performs it: strip the prefix, then split. *)
Definition resolve (path : string) : option (string * string) :=
  splitPath (strings.TrimPrefix path "secret/").

Definition withClient (c : confyImpl) (l : loaded) : confyImpl :=
  {| cache := cacheAfter l; envOverride := envOverride c; client := clientAfter l;
     ttl := ttl c; closed := closed c |}.

(** Lines 209-217 of [Get]: project the field out of the loaded
    document, or wrap the whole document. *)
Definition project (doc : document) (path fieldName : string) : Value * option error :=
  if negb (String.eqb fieldName "") then
    match doc !! fieldName with
    | Some f => (Some {| val := f |}, None)
    | None =>
        (None, Some (errors_New
           ("field '" +:+ fieldName +:+ "' on path '" +:+ path +:+ "' was not found")))
    end
  else (Some {| val := AMap doc |}, None).

(** [func (c *confyImpl) Get(ctx, path) (Value, error)]; [unicodeUpper]
    is the Unicode case mapping behind [strings.ToUpper]. *)
Definition Get (unicodeUpper : string -> string) (env : gmap string string)
    (c : confyImpl) (ctx : Context) (path : string)
  : outcome (Value * option error) * confyImpl :=
  let path := strings.TrimPrefix path "secret/" in
  match override unicodeUpper c env path with
  | Some envValue => (Return (Some {| val := AString envValue |}, None), c)
  | None =>
      match splitPath path with
      | None => (Panic "index out of range [0] with length 0", c)
      | Some (path, fieldName) =>
          let v := cache_Get (cache c) (client c) path (createLoader ctx) in
          match item v with
          | None =>
              match errBucket v with
              | Some e => (Return (None, Some e), withClient c v)
              | None => (Return (None, Some (errors_New "no value found")), withClient c v)
              end
          | Some doc => (Return (project doc path fieldName), withClient c v)
          end
      end
  end.

(** [func (c *confyImpl) GetOrDefault(ctx, path, fallback) (Value, bool)] *)
Definition GetOrDefault (unicodeUpper : string -> string) (env : gmap string string)
    (c : confyImpl) (ctx : Context) (path fallback : string)
  : outcome (Value * bool) * confyImpl :=
  match Get unicodeUpper env c ctx path with
  | (Panic msg, c') => (Panic msg, c')
  | (Return (v, err), c') =>
      match err with
      | Some _ => (Return (Some {| val := AString fallback |}, false), c')
      | None => (Return (v, true), c')
      end
  end.

(** ** Watch *)

(** The goroutine started by [Watch]: its baseline [oldValue], the
    values handed to the callback so far (oldest first), and whether
    the loop is still running. *)
Record watcher : Type := {
  oldValue : Value;
  delivered : list Value;
  looping : bool
}.

(** Which case of the [select] is taken in one iteration. *)
Inductive selected : Type :=
| TimerFired
| StopReceived.

(** A result of [int64] arithmetic: it wraps around. *)
Definition wrapInt64 (z : Z) : Z := ((z + 2 ^ 63) mod 2 ^ 64 - 2 ^ 63)%Z.

(** The duration [c.ttl + time.Second] handed to [time.After]: a sum of
    two [int64] durations. *)
Definition pollInterval (c : confyImpl) : Z := wrapInt64 (ttl c + Second).

(** Lines 360-363 of [Watch]: the first fetch seeds the baseline. *)
Definition watchStart (unicodeUpper : string -> string) (env : gmap string string)
    (c : confyImpl) (path : string) : outcome watcher * confyImpl :=
  match Get unicodeUpper env c context_Background path with
  | (Panic msg, c') => (Panic msg, c')
  | (Return (v, err), c') =>
      let oldValue :=
        match err with
        | Some _ => Some {| val := AString "" |}
        | None => v
        end in
      (Return {| oldValue := oldValue; delivered := []; looping := true |}, c')
  end.

(** Lines 365-379 of [Watch]: one iteration of the [for] loop. *)
Definition watchIter (unicodeUpper : string -> string)
    (comparator : Value -> Value -> bool) (path : string)
    (env : gmap string string) (sel : selected) (c : confyImpl) (w : watcher)
  : outcome watcher * confyImpl :=
  match sel with
  | TimerFired =>
      match Get unicodeUpper env c context_Background path with
      | (Panic msg, c') => (Panic msg, c')
      | (Return (newValue, err), c') =>
          match err with
          | Some _ => (Return w, c')
          | None =>
              let delivered :=
                if comparator (oldValue w) newValue
                then (delivered w ++ [newValue])%list
                else delivered w in
              (Return {| oldValue := newValue; delivered := delivered; looping := true |}, c')
          end
      end
  | StopReceived =>
      (Return {| oldValue := oldValue w; delivered := delivered w; looping := false |}, c)
  end.

(** What happens while the goroutine runs: an iteration of its own loop
    under the environment of that moment, or a step of the rest of the
    program on the shared client (a write to Vault, an expired item). *)
Inductive event : Type :=
| Iteration (env : gmap string string) (sel : selected)
| Elsewhere (f : confyImpl -> confyImpl).

(** The [for] loop of [Watch] along a schedule of events. *)
Fixpoint watchLoop (unicodeUpper : string -> string)
    (comparator : Value -> Value -> bool) (path : string)
    (schedule : list event) (c : confyImpl) (w : watcher)
  : outcome watcher * confyImpl :=
  match schedule with
  | [] => (Return w, c)
  | Elsewhere f :: schedule' => watchLoop unicodeUpper comparator path schedule' (f c) w
  | Iteration env sel :: schedule' =>
      if looping w then
        match watchIter unicodeUpper comparator path env sel c w with
        | (Panic msg, c') => (Panic msg, c')
        | (Return w', c') => watchLoop unicodeUpper comparator path schedule' c' w'
        end
      else watchLoop unicodeUpper comparator path schedule' c w
  end.

(** ** Coercions of a value *)

(** [fmt.Sprintf("%s", a)] on the values a Vault response holds.  A
    string prints as itself and a [json.Number] through its [String]
    method; [%s] is the wrong verb for a boolean and for nil.  How [fmt]
    lays out a map or a slice is left to [composite]. *)
Definition Sprintf_s (composite : any -> string) (a : any) : string :=
  match a with
  | ANil => "%!s(<nil>)"
  | AString s => s
  | ABool true => "%!s(bool=true)"
  | ABool false => "%!s(bool=false)"
  | ANumber n => n
  | AMap _ | ASlice _ => composite a
  end.

Module strconv.

(** [strconv.ParseBool(str)]; [None] is the syntax error. *)
Definition ParseBool (str : string) : option bool :=
  if existsb (String.eqb str) ["1"; "t"; "T"; "true"; "TRUE"; "True"] then Some true
  else if existsb (String.eqb str) ["0"; "f"; "F"; "false"; "FALSE"; "False"]
       then Some false
       else None.

(** The two errors of [strconv]'s number parsers. *)
Inductive NumError : Type :=
| ErrSyntax
| ErrRange.

Definition maxUint64 : Z := 2 ^ 64 - 1.

(** The loop of [strconv.ParseUint(s, 10, 64)]: bytes are read left to
    right; anything but a decimal digit is a syntax error, a value that
    leaves 64 bits is a range error. *)
Fixpoint parseUintLoop (s : string) (n : Z) : Z + NumError :=
  match s with
  | EmptyString => inl n
  | String c s' =>
      let b := Z.of_nat (nat_of_ascii c) in
      if (48 <=? b)%Z && (b <=? 57)%Z then
        let d := (b - 48)%Z in
        if (maxUint64 / 10 + 1 <=? n)%Z then inr ErrRange
        else
          let n1 := (n * 10 + d)%Z in
          if (maxUint64 <? n1)%Z then inr ErrRange else parseUintLoop s' n1
      else inr ErrSyntax
  end.

(** [strconv.ParseUint(s, 10, 64)] *)
Definition ParseUint (s : string) : Z + NumError :=
  match s with
  | EmptyString => inr ErrSyntax
  | _ => parseUintLoop s 0
  end.

(** [strconv.ParseInt(s, 10, 64)]: an optional sign, then [ParseUint],
    then the check against the 64-bit signed range. *)
Definition ParseInt (s : string) : Z + NumError :=
  match s with
  | EmptyString => inr ErrSyntax
  | String c rest =>
      let neg := Ascii.eqb c "-" in
      let digits := if Ascii.eqb c "+" || neg then rest else s in
      match ParseUint digits with
      | inr ErrSyntax => inr ErrSyntax
      | inr ErrRange => inr ErrRange
      | inl un =>
          let cutoff := (2 ^ 63)%Z in
          if negb neg && (cutoff <=? un)%Z then inr ErrRange
          else if neg && (cutoff <? un)%Z then inr ErrRange
          else inl (if neg then - un else un)%Z
      end
  end.

End strconv.

(** [func (v *value) String() string] *)
Definition String_ (composite : any -> string) (v : value) : string :=
  match val v with
  | AString s => s
  | other => Sprintf_s composite other
  end.

(** [func (v *value) Bool() (bool, bool)] *)
Definition Bool (composite : any -> string) (v : value) : bool * bool :=
  match val v with
  | ABool b => (b, true)
  | other =>
      match strconv.ParseBool (Sprintf_s composite other) with
      | None => (false, false)
      | Some b => (b, true)
      end
  end.

(** [func (v *value) Int64() (int64, bool)]: a [json.Number] goes
    through its own [Int64] method, which is
    [strconv.ParseInt(string(n), 10, 64)]; anything else is printed and
    parsed. *)
Definition Int64 (composite : any -> string) (v : value) : Z * bool :=
  match val v with
  | ANumber n =>
      match strconv.ParseInt n with
      | inr _ => (0%Z, false)
      | inl i => (i, true)
      end
  | other =>
      match strconv.ParseInt (Sprintf_s composite other) with
      | inr _ => (0%Z, false)
      | inl i => (i, true)
      end
  end.

(** The body of the loops in [Map] and [StringSlice]: a string is kept,
    anything else is printed. *)
Definition asString (composite : any -> string) (a : any) : string :=
  match a with
  | AString str => str
  | other => Sprintf_s composite other
  end.

(** [func (v *value) Map() (map[string]string, bool)] *)
Definition Map (composite : any -> string) (v : value) : gmap string string * bool :=
  match val v with
  | AMap ma => (asString composite <$> ma, true)
  | _ => (∅, false)
  end.

(** [func (v *value) StringSlice() ([]string, bool)] *)
Definition StringSlice (composite : any -> string) (v : value) : list string * bool :=
  match val v with
  | ASlice vals => (asString composite <$> vals, true)
  | _ => ([], false)
  end.

(** ** NewVaultClient *)

(** The [vault.ClientOption]s that [NewVaultClient] builds; an option of
    the caller's may be any other one. *)
Inductive ClientOption : Type :=
| ClientToken (token : string)
| ClientTokenPath (path : string)
| ClientRole (role : string)
| ClientAuthPath (path : string)
| ClientAuthMethod (method : string)
| ClientOtherOption (id : nat).

(** Lines 40-56 of [NewVaultClient]: the options handed to
    [vault.NewClientWithOptions]. *)
Definition clientOptions (env : gmap string string) (opts : list ClientOption)
  : list ClientOption :=
  let clientOptions := ([] ++ opts)%list in
  if negb (String.eqb (os_Getenv env "VAULT_AUTH_METHOD") "jwt") then
    if negb (String.eqb (os_Getenv env "VAULT_TOKEN") "") then
      (clientOptions ++ [ClientToken (os_Getenv env "VAULT_TOKEN")])%list
    else
      (clientOptions ++ [ClientTokenPath (os_Getenv env "HOME" +:+ "/.vault-token")])%list
  else
    (clientOptions ++ [ClientRole (os_Getenv env "VAULT_ROLE");
                       ClientAuthPath (os_Getenv env "VAULT_PATH");
                       ClientAuthMethod (os_Getenv env "VAULT_AUTH_METHOD")])%list.

(** [func NewVaultClient(opts ...vault.ClientOption) *vault.Client];
    [NewClientWithOptions] is the constructor of the Vault SDK, which
    gives a client or an error. *)
Definition NewVaultClient (env : gmap string string)
    (NewClientWithOptions : list ClientOption -> vaultClient + string)
    (opts : list ClientOption) : outcome vaultClient :=
  match NewClientWithOptions (clientOptions env opts) with
  | inr err => Panic err
  | inl client => Return client
  end.

(** ** Vocabulary of the statements *)

(** [s] holds no field delimiter. *)
Definition noHash (s : string) : Prop :=
  ~ In "#"%char (list_ascii_of_string s).

(** The client once the cache has dropped the item under [key]. *)
Definition expired (c : confyImpl) (key : string) : confyImpl :=
  {| cache := cache_expire (cache c) key; envOverride := envOverride c;
     client := client c; ttl := ttl c; closed := closed c |}.

(** How many iterations of a schedule are started by the timer. *)
Fixpoint timerIterations (schedule : list event) : nat :=
  match schedule with
  | [] => 0
  | Iteration _ TimerFired :: schedule' => S (timerIterations schedule')
  | _ :: schedule' => timerIterations schedule'
  end.

(** ** A small Vault, after the fixtures of [confy_test.go] *)

Module Fixture.

Definition app : document :=
  {[ "user" := AString "fake-user"; "password" := AString "fake-password" ]}.

Definition types : document :=
  {[ "s" := AString "a string";
     "b" := ABool true;
     "i" := ANumber "42";
     "m" := AMap {[ "three" := AString "tres" ]};
     "ll" := AString "not a list" ]}.

Definition store (ctx : Context) (key : string) : kvResponse :=
  if String.eqb key "test/app" then KvSecret app
  else if String.eqb key "test/types" then KvSecret types
  else if String.eqb key "x" then KvSecret {[ "user" := AString "x-user" ]}
  else KvError "secret not found".

Definition vault : vaultClient :=
  {| kvGet := store; requests := []; closeCalls := 0 |}.

(** A Vault that cannot be reached. *)
Definition unreachable : vaultClient :=
  {| kvGet := fun _ _ => KvError "connection refused"; requests := []; closeCalls := 0 |}.

Definition ctx : Context := context_Background.

(** The path [tést/app] and the variable name [TÉST_APP] that Go
    derives from it, as UTF-8 bytes. *)
Definition accented : string :=
  "t" +:+ String "195" (String "169" "") +:+ "st/app".

Definition ACCENTED : string :=
  "T" +:+ String "195" (String "137" "") +:+ "ST_APP".

(** What stands in for the Unicode tables: the one mapping the fixtures
    need.  Every other path of the fixtures is ASCII, on which
    [strings.ToUpper] never consults them. *)
Definition upper (s : string) : string :=
  if String.eqb s (replacer_Replace accented) then ACCENTED else s.

End Fixture.

(** * Properties *)

(** ** Facts about the string helpers *)

Example ToUpper_ex (upper : string -> string)
    : strings.ToUpper upper (replacer_Replace "test/app#user") = "TEST_APP_USER".
Proof. reflexivity. Qed.

Example SplitN_ex1 : strings.SplitN "a/b#c#d" "#" 2 = ["a/b"; "c#d"].
Proof. reflexivity. Qed.

Example SplitN_ex2 : strings.SplitN "" "#" 2 = [""].
Proof. reflexivity. Qed.

Example SplitN_ex3 : strings.SplitN "a/b" "#" 2 = ["a/b"].
Proof. reflexivity. Qed.

Example TrimPrefix_ex : strings.TrimPrefix "secret/secret/x" "secret/" = "secret/x".
Proof. reflexivity. Qed.

(** Closes [noHash s] for a literal [s]. *)
Ltac noHash_literal :=
  let H := fresh "H" in
  unfold noHash; simpl; intros H;
  repeat destruct H as [H|H]; try discriminate H; done.

Section StringFacts.

Import strings.

#[local] Arguments String.append !_ _ / : simpl nomatch.

Lemma HasPrefix_append (p s : string) : HasPrefix (p +:+ s) p = true.
Proof.
  induction p as [|a p IH]; simpl; [by destruct s|].
  by rewrite Ascii.eqb_refl.
Qed.

Lemma sliceFrom_append (p s : string) : sliceFrom (String.length p) (p +:+ s) = s.
Proof. induction p as [|a p IH]; simpl; [done|exact IH]. Qed.

Lemma sliceTo_append (p s : string) : sliceTo (String.length p) (p +:+ s) = p.
Proof. induction p as [|a p IH]; simpl; [done|by rewrite IH]. Qed.

Lemma TrimPrefix_append (p s : string) : TrimPrefix (p +:+ s) p = s.
Proof. unfold TrimPrefix. by rewrite HasPrefix_append, sliceFrom_append. Qed.

Lemma TrimPrefix_without (p s : string) : HasPrefix s p = false -> TrimPrefix s p = s.
Proof. unfold TrimPrefix. by intros ->. Qed.

Lemma HasPrefix_hash (s : string) :
  HasPrefix s "#" = match s with String c _ => Ascii.eqb c "#" | EmptyString => false end.
Proof.
  destruct s as [|c s]; cbn [HasPrefix]; [done|].
  destruct (Ascii.eqb c "#"); [by destruct s|done].
Qed.

Lemma Index_noHash (s : string) : noHash s -> Index s "#" = None.
Proof.
  unfold noHash. induction s as [|c s IH]; intros Hs; [done|].
  cbn [Index]. rewrite HasPrefix_hash.
  destruct (Ascii.eqb_spec c "#") as [->|Hc].
  - exfalso. apply Hs. by left.
  - rewrite IH; [done|]. intros Hin. apply Hs. by right.
Qed.

Lemma Index_first_hash (x y : string) :
  noHash x -> Index (x +:+ "#" +:+ y) "#" = Some (String.length x).
Proof.
  unfold noHash. induction x as [|c x IH]; intros Hx.
  { simpl. by destruct y. }
  cbn [String.append Index]. rewrite HasPrefix_hash.
  destruct (Ascii.eqb_spec c "#") as [->|Hc].
  - exfalso. apply Hx. by left.
  - cbn [String.append] in IH. rewrite IH; [done|]. intros Hin. apply Hx. by right.
Qed.

Lemma splitLoop_nonempty (n : nat) (s sep : string) : splitLoop n s sep <> [].
Proof. destruct n; simpl; [done|]. by destruct (Index s sep). Qed.

Lemma SplitN_noHash (s : string) : noHash s -> SplitN s "#" 2 = [s].
Proof.
  intros Hs. unfold SplitN.
  destruct (Nat.min 2 (String.length s + 1) - 1)%nat; simpl; [done|].
  by rewrite Index_noHash.
Qed.

Lemma sliceFrom_past_hash (x y : string) :
  sliceFrom (String.length x + String.length "#") (x +:+ "#" +:+ y) = y.
Proof. induction x as [|c x IH]; simpl; [done|exact IH]. Qed.

Lemma length_with_hash (x y : string) :
  (1 <= String.length (x +:+ "#" +:+ y))%nat.
Proof. destruct x; simpl; lia. Qed.

Lemma SplitN_first_hash (x y : string) :
  noHash x -> SplitN (x +:+ "#" +:+ y) "#" 2 = [x; y].
Proof.
  intros Hx. unfold SplitN.
  pose proof (length_with_hash x y) as Hlen.
  replace (Nat.min 2 (String.length (x +:+ "#" +:+ y) + 1) - 1)%nat with 1%nat by lia.
  cbn [splitLoop]. rewrite Index_first_hash by done.
  by rewrite sliceTo_append, sliceFrom_past_hash.
Qed.

Lemma append_assoc (a b d : string) : (a +:+ b) +:+ d = a +:+ (b +:+ d).
Proof. induction a as [|c a IH]; simpl; [done|by rewrite IH]. Qed.

Lemma noHash_append (a b : string) : noHash (a +:+ b) <-> noHash a /\ noHash b.
Proof.
  unfold noHash. induction a as [|c a IH]; simpl; [tauto|]. tauto.
Qed.

(** [HasPrefix] is "starts with". *)
Lemma HasPrefix_true (s p : string) :
  HasPrefix s p = true <-> s = p +:+ sliceFrom (String.length p) s.
Proof.
  revert s. induction p as [|a p IH]; intros s.
  - by destruct s.
  - destruct s as [|c s]; [done|]. simpl.
    destruct (Ascii.eqb_spec c a) as [->|Hca].
    + rewrite IH. split; [by intros <-|by intros [= <-]].
    + split; [done|]. intros [= Heq _]. done.
Qed.

(** A prefix that holds no ['#'] is not affected by a trailing ['#']. *)
Lemma HasPrefix_trailing_hash (p x : string) :
  noHash p -> HasPrefix (x +:+ "#") p = HasPrefix x p.
Proof.
  unfold noHash. revert x. induction p as [|a p IH]; intros x Hp.
  - destruct x; reflexivity.
  - destruct x as [|c x]; cbn [String.append HasPrefix].
    + destruct (Ascii.eqb_spec "#"%char a) as [<-|_]; [|done].
      exfalso. apply Hp. by left.
    + destruct (Ascii.eqb c a); [|done]. apply IH. intros Hin. apply Hp. by right.
Qed.

(** Stripping the prefix commutes with a trailing ['#'], and keeps a
    path free of ['#'] so. *)
Lemma TrimPrefix_trailing_hash (p x : string) :
  noHash p -> TrimPrefix (x +:+ "#") p = TrimPrefix x p +:+ "#".
Proof.
  intros Hp. unfold TrimPrefix. rewrite HasPrefix_trailing_hash by done.
  destruct (HasPrefix x p) eqn:Hpre; [|done].
  apply HasPrefix_true in Hpre. rewrite Hpre at 1.
  by rewrite append_assoc, sliceFrom_append.
Qed.

Lemma TrimPrefix_noHash (p x : string) : noHash x -> noHash (TrimPrefix x p).
Proof.
  intros Hx. unfold TrimPrefix. destruct (HasPrefix x p) eqn:Hpre; [|done].
  apply HasPrefix_true in Hpre. rewrite Hpre in Hx.
  by apply noHash_append in Hx as [_ Hx].
Qed.

End StringFacts.

(** ** Path resolution *)

Lemma splitPath_total (p : string) : exists key field, splitPath p = Some (key, field).
Proof.
  unfold splitPath.
  pose proof (splitLoop_nonempty (Nat.min 2 (String.length p + 1) - 1) p "#") as Hne.
  change (strings.SplitN p "#" 2)
    with (strings.splitLoop (Nat.min 2 (String.length p + 1) - 1) p "#").
  destruct (strings.splitLoop _ p "#") as [|key rest]; [done|].
  cbn [lookup list_lookup]. eauto.
Qed.

Lemma splitPath_noHash (p : string) : noHash p -> splitPath p = Some (p, "").
Proof. intros Hp. unfold splitPath. by rewrite SplitN_noHash. Qed.

Lemma splitPath_first_hash (x y : string) :
  noHash x -> splitPath (x +:+ "#" +:+ y) = Some (x, y).
Proof. intros Hx. unfold splitPath. by rewrite SplitN_first_hash. Qed.

(** C3. Resolving a path never fails, and the split honours only the
    first ['#']: a path without ['#'] has the empty field name; a path
    [x#y] with no ['#'] in [x] has document key [x] and field name [y],
    whatever further ['#'] characters [y] holds.  The split is the one
    of lines 191-196, which [Get] applies to the path once the
    ["secret/"] prefix is gone. *)
Theorem resolve_splits_on_first_hash :
  (forall p, exists key field, resolve p = Some (key, field)) /\
  (forall p, exists key field, splitPath p = Some (key, field)) /\
  (forall p, noHash p -> splitPath p = Some (p, "")) /\
  (forall x y, noHash x -> splitPath (x +:+ "#" +:+ y) = Some (x, y)).
Proof.
  repeat split.
  - intros p. apply splitPath_total.
  - apply splitPath_total.
  - apply splitPath_noHash.
  - apply splitPath_first_hash.
Qed.

Lemma resolve_splits_on_first_hash_witness :
  noHash "a/b" /\ splitPath "a/b" = Some ("a/b", "") /\
  splitPath ("a/b" +:+ "#" +:+ "c#d") = Some ("a/b", "c#d").
Proof.
  assert (noHash "a/b") as Hab.
  { noHash_literal. }
  destruct resolve_splits_on_first_hash as (_ & _ & Hplain & Hsplit).
  split; [exact Hab|]. split; [exact (Hplain "a/b" Hab)|exact (Hsplit "a/b" "c#d" Hab)].
Defined.

(** ** Get *)

(** [Get] always returns: the only index it takes is in range. *)
Lemma Get_returns (upper : string -> string) env c ctx path :
  exists r c', Get upper env c ctx path = (Return r, c').
Proof.
  unfold Get.
  destruct (override upper c env _) as [envValue|]; [eauto|].
  destruct (splitPath_total (strings.TrimPrefix path "secret/")) as (key & field & ->).
  destruct (item _); [eauto|].
  destruct (errBucket _); eauto.
Qed.

(** C1. With the override enabled, when the variable named by the
    upper-cased path (prefix stripped, ['/'] and ['#'] turned into
    ['_'], upper-cased as [strings.ToUpper] does it, Unicode included)
    holds a non-empty string [s], [Get] returns a value wrapping
    exactly [s] and no error, and leaves the client as it was: the cache
    counts no lookup and holds the same items, and no request reaches
    Vault, whatever Vault would have answered. *)
Theorem Get_override_wins (upper : string -> string) env (c : confyImpl) ctx (p s : string) :
  envOverride c = true ->
  os_Getenv env
    (strings.ToUpper upper (replacer_Replace (strings.TrimPrefix p "secret/"))) = s ->
  s <> "" ->
  Get upper env c ctx p = (Return (Some {| val := AString s |}, None), c).
Proof.
  intros Hon Hs Hne. unfold Get, override, envKey. rewrite Hon, Hs.
  destruct (String.eqb_spec s "") as [->|_]; [done|reflexivity].
Qed.

Lemma Get_override_wins_witness :
  let c := New Fixture.unreachable 0 true in
  let env : gmap string string := {[ "TEST_APP_USER" := "other-value" ]} in
  let env' : gmap string string := {[ Fixture.ACCENTED := "other-value" ]} in
  Get Fixture.upper env c Fixture.ctx "test/app#user"
    = (Return (Some {| val := AString "other-value" |}, None), c)
  /\ requests (client (snd (Get Fixture.upper env c Fixture.ctx "test/app#user"))) = []
  /\ misses (cache (snd (Get Fixture.upper env c Fixture.ctx "test/app#user"))) = 0%nat
  /\ Get Fixture.upper env' c Fixture.ctx Fixture.accented
       = (Return (Some {| val := AString "other-value" |}, None), c).
Proof.
  intros c env env'.
  assert (Get Fixture.upper env c Fixture.ctx "test/app#user"
          = (Return (Some {| val := AString "other-value" |}, None), c)) as HGet.
  { apply (Get_override_wins Fixture.upper env c Fixture.ctx "test/app#user" "other-value");
      [reflexivity|reflexivity|discriminate]. }
  split; [exact HGet|]. rewrite HGet. split; [reflexivity|]. split; [reflexivity|].
  apply (Get_override_wins Fixture.upper env' c Fixture.ctx Fixture.accented "other-value");
    [reflexivity|reflexivity|discriminate].
Defined.

(** C4. [GetOrDefault] has no error to hand on: it always returns a
    value and a flag.  Whenever [Get] returns an error, the value wraps
    exactly the fallback string and the flag is false; whenever [Get]
    returns without error, its value is passed on unchanged with the
    flag true. *)
Theorem GetOrDefault_absorbs_errors (upper : string -> string)
    env (c : confyImpl) ctx (path fallback : string) :
  (exists v ok c', GetOrDefault upper env c ctx path fallback = (Return (v, ok), c')) /\
  (forall v e c', Get upper env c ctx path = (Return (v, Some e), c') ->
     GetOrDefault upper env c ctx path fallback
       = (Return (Some {| val := AString fallback |}, false), c')) /\
  (forall v c', Get upper env c ctx path = (Return (v, None), c') ->
     GetOrDefault upper env c ctx path fallback = (Return (v, true), c')).
Proof.
  unfold GetOrDefault. repeat split.
  - destruct (Get_returns upper env c ctx path) as ([v err] & c' & ->).
    destruct err; eauto.
  - by intros v e c' ->.
  - by intros v c' ->.
Qed.

Lemma GetOrDefault_absorbs_errors_witness :
  let c := New Fixture.vault 0 false in
  (exists e c', Get Fixture.upper ∅ c Fixture.ctx "not/here#never" = (Return (None, Some e), c')
     /\ GetOrDefault Fixture.upper ∅ c Fixture.ctx "not/here#never" "foo"
        = (Return (Some {| val := AString "foo" |}, false), c'))
  /\ (exists c', GetOrDefault Fixture.upper ∅ c Fixture.ctx "test/app#user" "foo"
        = (Return (Some {| val := AString "fake-user" |}, true), c')).
Proof.
  intros c. split.
  - destruct (GetOrDefault_absorbs_errors Fixture.upper ∅ c Fixture.ctx "not/here#never" "foo")
      as (_ & Herr & _).
    eexists _, _. split; [reflexivity|]. eapply (Herr None). reflexivity.
  - destruct (GetOrDefault_absorbs_errors Fixture.upper ∅ c Fixture.ctx "test/app#user" "foo")
      as (_ & _ & Hok).
    eexists. eapply Hok. reflexivity.
Defined.

(** ** New and Close *)

(** The claim as written breaks on a negative duration: it is neither
    zero nor between zero and the floor, yet the client does not keep
    it. *)
Lemma New_negative_ttl_is_clamped :
  let d := (-1)%Z in
  d <> 0%Z /\ ~ (0 < d < MinimumCacheTTL)%Z /\
  ttl (New Fixture.vault d false) = MinimumCacheTTL /\
  ttl (New Fixture.vault d false) <> d.
Proof. cbv zeta. repeat split; [lia|lia|discriminate]. Qed.

(** C5, amended. A requested TTL of zero becomes [DefaultCacheTTL] (five
    minutes); any other TTL below [MinimumCacheTTL] (thirty seconds),
    negative ones included, becomes exactly that floor; a TTL at or
    above the floor is kept.  The cache is built with the same TTL. *)
Theorem New_effective_ttl (cl : vaultClient) (d : Z) (ov : bool) :
  (d = 0 -> ttl (New cl d ov) = DefaultCacheTTL)%Z /\
  (d <> 0 -> d < MinimumCacheTTL -> ttl (New cl d ov) = MinimumCacheTTL)%Z /\
  (MinimumCacheTTL <= d -> ttl (New cl d ov) = d)%Z /\
  cacheTTL (cache (New cl d ov)) = ttl (New cl d ov) /\
  DefaultCacheTTL = 300000000000%Z /\ MinimumCacheTTL = 30000000000%Z.
Proof.
  unfold New, new. cbn [ttl cache cache_Start ttlcache_New cacheTTL].
  repeat split.
  - intros ->. reflexivity.
  - intros Hnz Hlt. destruct (Z.eqb_spec d 0) as [|_]; [done|].
    destruct (Z.ltb_spec d MinimumCacheTTL); [done|lia].
  - intros Hge. unfold MinimumCacheTTL, Second in *.
    destruct (Z.eqb_spec d 0) as [|_]; [lia|].
    destruct (Z.ltb_spec d (30 * 1000000000)); [lia|done].
Qed.

Lemma New_effective_ttl_witness :
  ttl (New Fixture.vault 0 false) = DefaultCacheTTL /\
  ttl (New Fixture.vault (-1) false) = MinimumCacheTTL /\
  ttl (New Fixture.vault (2 * Minute) false) = (2 * Minute)%Z.
Proof.
  split; [|split].
  - destruct (New_effective_ttl Fixture.vault 0 false) as (Hzero & _).
    apply Hzero. reflexivity.
  - destruct (New_effective_ttl Fixture.vault (-1) false) as (_ & Hlow & _).
    apply Hlow; [discriminate|reflexivity].
  - destruct (New_effective_ttl Fixture.vault (2 * Minute) false) as (_ & _ & Hkeep & _).
    apply Hkeep. discriminate.
Defined.

Lemma Close_closed (c : confyImpl) : closed (Close c) = true.
Proof. unfold Close. by destruct (closed c) eqn:Hc. Qed.

Lemma Close_when_closed (c : confyImpl) : closed c = true -> Close c = c.
Proof. unfold Close. by intros ->. Qed.

Lemma Close_again (c : confyImpl) (n : nat) : Nat.iter (S n) Close c = Close c.
Proof.
  induction n as [|n IH]; [done|].
  change (Nat.iter (S (S n)) Close c) with (Close (Nat.iter (S n) Close c)).
  rewrite IH. apply Close_when_closed, Close_closed.
Qed.

(** C8. [Close] is idempotent.  On an open client the first call stops
    the cache's expiration goroutine, closes the Vault client and sets
    [closed]; on a closed client a call changes nothing.  So two calls
    (or any number of them) leave the client exactly as one call does,
    with the cache stopped once and the Vault client closed once. *)
Theorem Close_idempotent (c : confyImpl) :
  Close (Close c) = Close c /\
  (closed c = true -> Close c = c) /\
  (closed c = false ->
     closed (Close c) = true /\
     started (cache (Close c)) = false /\
     stopCalls (cache (Close c)) = S (stopCalls (cache c)) /\
     closeCalls (client (Close c)) = S (closeCalls (client c)) /\
     forall n, stopCalls (cache (Nat.iter (S n) Close c)) = S (stopCalls (cache c)) /\
               closeCalls (client (Nat.iter (S n) Close c)) = S (closeCalls (client c))).
Proof.
  split; [|split].
  - apply Close_when_closed, Close_closed.
  - apply Close_when_closed.
  - intros Hopen.
    assert (Close c = {| cache := cache_Stop (cache c); envOverride := envOverride c;
                         client := client_Close (client c); ttl := ttl c;
                         closed := true |}) as Hfirst.
    { unfold Close. by rewrite Hopen. }
    repeat split; rewrite ?Close_again, Hfirst; reflexivity.
Qed.

Lemma Close_idempotent_witness :
  let c := New Fixture.vault 0 false in
  closed c = false /\
  stopCalls (cache (Close (Close c))) = 1%nat /\
  closeCalls (client (Close (Close c))) = 1%nat /\
  Close (Close c) = Close c.
Proof.
  intros c.
  destruct (Close_idempotent c) as (Htwice & _ & Hfirst).
  destruct (Hfirst eq_refl) as (_ & _ & _ & _ & Hmany).
  destruct (Hmany 1%nat) as (Hstop & Hrelease).
  split; [reflexivity|]. split; [exact Hstop|]. split; [exact Hrelease|exact Htwice].
Defined.

(** ** Fields and documents *)

(** C7. For a path whose field name is not empty, once the override has
    not answered and the document is obtained (from the cache or from
    Vault): if the document has no such field, [Get] returns a nil value
    and the error ["field '<field>' on path '<key>' was not found"]; if
    it has, [Get] returns a value wrapping exactly that field's raw
    value, and no error. *)
Theorem Get_field (upper : string -> string)
    env (c : confyImpl) ctx (p key field : string) (doc : document) :
  override upper c env (strings.TrimPrefix p "secret/") = None ->
  resolve p = Some (key, field) ->
  field <> "" ->
  item (cache_Get (cache c) (client c) key (createLoader ctx)) = Some doc ->
  let c' := withClient c (cache_Get (cache c) (client c) key (createLoader ctx)) in
  (doc !! field = None ->
     Get upper env c ctx p
       = (Return (None,
                  Some {| Error := "field '" +:+ field +:+ "' on path '" +:+ key
                                     +:+ "' was not found";
                          Unwrap := None |}), c')) /\
  (forall f, doc !! field = Some f ->
     Get upper env c ctx p = (Return (Some {| val := f |}, None), c')).
Proof.
  intros Hov Hres Hfield Hdoc c'. unfold resolve in Hres.
  unfold Get. rewrite Hov, Hres. fold c'. rewrite Hdoc. unfold project.
  destruct (String.eqb_spec field "") as [|_]; [done|]. cbn [negb].
  split.
  - by intros ->.
  - by intros f ->.
Qed.

Lemma Get_field_witness :
  let c := New Fixture.vault 0 false in
  (exists c', Get Fixture.upper ∅ c Fixture.ctx "test/app#nope"
     = (Return (None, Some {| Error := "field 'nope' on path 'test/app' was not found";
                              Unwrap := None |}), c'))
  /\ (exists c', Get Fixture.upper ∅ c Fixture.ctx "secret/test/app#user"
        = (Return (Some {| val := AString "fake-user" |}, None), c')).
Proof.
  intros c. split.
  - eexists.
    refine (proj1 (Get_field Fixture.upper ∅ c Fixture.ctx "test/app#nope" "test/app" "nope"
        Fixture.app
                     _ _ _ _) _); try reflexivity; discriminate.
  - eexists.
    refine (proj2 (Get_field Fixture.upper ∅ c Fixture.ctx "secret/test/app#user" "test/app" "user"
                     Fixture.app _ _ _ _) (AString "fake-user") _);
      try reflexivity; discriminate.
Defined.

(** C2.  The comment on [Data] in the [Value] interface says it only
    works when the path named no field, and the claim says the same: on
    a value wrapping a single field [Data] is to return [ok = false].
    The code does not keep to it.  [Get] of ["test/types#m"] wraps the
    single field [m], whose raw value is a mapping, and [Data] succeeds
    on it, returning that mapping and [true]. *)
Theorem Data_succeeds_on_map_field :
  let c := New Fixture.vault 0 false in
  resolve "test/types#m" = Some ("test/types", "m") /\
  exists v, fst (Get Fixture.upper ∅ c Fixture.ctx "test/types#m") = Return (Some v, None) /\
            Fixture.types !! "m" = Some (val v) /\
            Data v = ({[ "three" := AString "tres" ]}, true).
Proof.
  intros c. split; [reflexivity|].
  exists {| val := AMap {[ "three" := AString "tres" ]} |}.
  split; [reflexivity|]. split; reflexivity.
Qed.

(** ** The watch loop *)

(** C6. In an iteration of the polling loop whose timer fires: if the
    re-fetch by [Get] returns an error, the watcher is left as it was
    (same baseline, nothing delivered, still looping) and the loop goes
    on with the next event; if the re-fetch succeeds, the callback
    receives the new value exactly when [comparator oldValue newValue]
    is true, and the baseline becomes the new value whether or not the
    comparator fired. *)
Theorem watchIter_timer (upper : string -> string)
    (comparator : Value -> Value -> bool) (path : string)
    env (c : confyImpl) (w : watcher) :
  (forall v e c',
     Get upper env c context_Background path = (Return (v, Some e), c') ->
     watchIter upper comparator path env TimerFired c w = (Return w, c') /\
     (looping w = true ->
      forall schedule,
        watchLoop upper comparator path (Iteration env TimerFired :: schedule) c w
          = watchLoop upper comparator path schedule c' w)) /\
  (forall newValue c',
     Get upper env c context_Background path = (Return (newValue, None), c') ->
     exists w',
       watchIter upper comparator path env TimerFired c w = (Return w', c') /\
       oldValue w' = newValue /\
       looping w' = true /\
       delivered w' = (if comparator (oldValue w) newValue
                       then delivered w ++ [newValue]
                       else delivered w)%list).
Proof.
  split.
  - intros v e c' HGet.
    assert (watchIter upper comparator path env TimerFired c w = (Return w, c')) as Hiter.
    { unfold watchIter. by rewrite HGet. }
    split; [exact Hiter|].
    intros Hloop schedule. cbn [watchLoop]. by rewrite Hloop, Hiter.
  - intros newValue c' HGet. eexists. unfold watchIter. rewrite HGet.
    split; [reflexivity|]. by cbn [oldValue looping delivered].
Qed.

Lemma watchIter_timer_witness :
  let always (old new : Value) := true in
  let w := {| oldValue := Some {| val := AString "old-user" |};
              delivered := []; looping := true |} in
  (exists c', watchIter Fixture.upper always "test/app#user" ∅ TimerFired
                (New Fixture.unreachable 0 false) w = (Return w, c'))
  /\ (exists w' c', watchIter Fixture.upper always "test/app#user" ∅ TimerFired
                      (New Fixture.vault 0 false) w = (Return w', c')
        /\ oldValue w' = Some {| val := AString "fake-user" |}
        /\ delivered w' = [Some {| val := AString "fake-user" |}]).
Proof.
  intros always w. split.
  - eexists.
    refine (proj1 (proj1 (watchIter_timer Fixture.upper always "test/app#user" ∅
                            (New Fixture.unreachable 0 false) w) None _ _ _)).
    reflexivity.
  - destruct (proj2 (watchIter_timer Fixture.upper always "test/app#user" ∅
                       (New Fixture.vault 0 false) w)
                (Some {| val := AString "fake-user" |}) _ eq_refl)
      as (w' & Hiter & Hold & _ & Hdelivered).
    exists w'. eexists. split; [exact Hiter|]. split; [exact Hold|exact Hdelivered].
Defined.

(** ** The ["secret/"] prefix and a trailing ['#'] *)

(** The claim as written breaks on a path that itself begins with
    ["secret/"]: only one prefix is stripped, so the longer path asks
    Vault for ["secret/x"] and the shorter one for ["x"]. *)
Lemma Get_strips_one_prefix_only :
  let c := New Fixture.vault 0 false in
  let p := "secret/x" in
  requests (client (snd (Get Fixture.upper ∅ c Fixture.ctx ("secret/" +:+ p)))) = ["secret/x"] /\
  requests (client (snd (Get Fixture.upper ∅ c Fixture.ctx p))) = ["x"] /\
  Get Fixture.upper ∅ c Fixture.ctx ("secret/" +:+ p) <> Get Fixture.upper ∅ c Fixture.ctx p.
Proof.
  intros c p. split; [reflexivity|]. split; [reflexivity|].
  intros H. apply (f_equal (fun r => requests (client (snd r)))) in H.
  vm_compute in H. discriminate H.
Qed.

(** C9, amended. [Get] strips one leading ["secret/"]: for every path
    [p], [Get] of ["secret/" ++ p] looks for the override under the
    variable derived from [p] and resolves document key and field from
    [p].  When [p] does not itself begin with ["secret/"], [Get] of
    ["secret/" ++ p] and [Get] of [p] are the same computation: same
    result, same client afterwards. *)
Theorem Get_secret_prefix (upper : string -> string) env (c : confyImpl) ctx (p : string) :
  (override upper c env (strings.TrimPrefix ("secret/" +:+ p) "secret/") = override upper c env p /\
   resolve ("secret/" +:+ p) = splitPath p) /\
  (strings.HasPrefix p "secret/" = false ->
   Get upper env c ctx ("secret/" +:+ p) = Get upper env c ctx p).
Proof.
  unfold resolve. rewrite TrimPrefix_append. split; [done|].
  intros Hp. unfold Get. by rewrite TrimPrefix_append, TrimPrefix_without.
Qed.

Lemma Get_secret_prefix_witness :
  let c := New Fixture.vault 0 true in
  let env : gmap string string := {[ "TEST_APP_USER" := "other-value" ]} in
  Get Fixture.upper env c Fixture.ctx ("secret/" +:+ "test/app#user")
    = Get Fixture.upper env c Fixture.ctx "test/app#user"
  /\ Get Fixture.upper ∅ c Fixture.ctx ("secret/" +:+ "test/app#user")
    = Get Fixture.upper ∅ c Fixture.ctx "test/app#user".
Proof.
  intros c env. split.
  - apply (Get_secret_prefix Fixture.upper env c Fixture.ctx "test/app#user"). reflexivity.
  - apply (Get_secret_prefix Fixture.upper ∅ c Fixture.ctx "test/app#user"). reflexivity.
Defined.

(** The claim as written breaks under the override: the variable names
    derived from ["test/app#"] and ["test/app"] differ, so the
    environment can answer the first path and not the second. *)
Lemma trailing_hash_differs_under_override :
  let c := New Fixture.vault 0 true in
  let env : gmap string string := {[ "TEST_APP_" := "from-env" ]} in
  fst (Get Fixture.upper env c Fixture.ctx ("test/app" +:+ "#"))
    = Return (Some {| val := AString "from-env" |}, None) /\
  fst (Get Fixture.upper env c Fixture.ctx "test/app")
    = Return (Some {| val := AMap Fixture.app |}, None) /\
  Get Fixture.upper env c Fixture.ctx ("test/app" +:+ "#")
    <> Get Fixture.upper env c Fixture.ctx "test/app".
Proof.
  intros c env. split; [reflexivity|]. split; [reflexivity|].
  intros H. apply (f_equal (fun r => requests (client (snd r)))) in H.
  vm_compute in H. discriminate H.
Qed.

(** C10, amended. For a document key [x] (no ['#'] in it), whenever the
    override gives the same answer for ["x#"] and for [x] (it is off, or
    neither derived variable holds a non-empty value, or both hold the
    same one), [Get] of ["x#"] and [Get] of [x] are the same
    computation.  When the override answers neither, the field name
    after the split is empty and a document that is obtained is
    returned whole, not reported as lacking the empty field. *)
Theorem Get_trailing_hash (upper : string -> string) env (c : confyImpl) ctx (x : string) :
  noHash x ->
  override upper c env (strings.TrimPrefix (x +:+ "#") "secret/")
    = override upper c env (strings.TrimPrefix x "secret/") ->
  Get upper env c ctx (x +:+ "#") = Get upper env c ctx x /\
  resolve (x +:+ "#") = resolve x /\
  (override upper c env (strings.TrimPrefix x "secret/") = None ->
   forall doc,
     item (cache_Get (cache c) (client c) (strings.TrimPrefix x "secret/")
             (createLoader ctx)) = Some doc ->
     fst (Get upper env c ctx (x +:+ "#")) = Return (Some {| val := AMap doc |}, None)).
Proof.
  intros Hx Hov.
  assert (noHash "secret/") as Hsecret.
  { noHash_literal. }
  pose proof (TrimPrefix_noHash "secret/" x Hx) as Ht.
  assert (resolve (x +:+ "#") = Some (strings.TrimPrefix x "secret/", "")) as Hleft.
  { unfold resolve. rewrite TrimPrefix_trailing_hash by done.
    exact (splitPath_first_hash _ "" Ht). }
  assert (resolve x = Some (strings.TrimPrefix x "secret/", "")) as Hright.
  { unfold resolve. by apply splitPath_noHash. }
  unfold resolve in Hleft, Hright.
  split; [|split].
  - unfold Get. by rewrite Hov, Hleft, Hright.
  - unfold resolve. by rewrite Hleft, Hright.
  - intros Hnone doc Hdoc. unfold Get. rewrite Hov, Hnone, Hleft, Hdoc. reflexivity.
Qed.

Lemma Get_trailing_hash_witness :
  let c := New Fixture.vault 0 false in
  let env : gmap string string := {[ "TEST_APP_" := "from-env" ]} in
  noHash "test/app" /\
  Get Fixture.upper env c Fixture.ctx ("test/app" +:+ "#")
    = Get Fixture.upper env c Fixture.ctx "test/app" /\
  fst (Get Fixture.upper env c Fixture.ctx ("test/app" +:+ "#"))
    = Return (Some {| val := AMap Fixture.app |}, None).
Proof.
  intros c env.
  assert (noHash "test/app") as Hx.
  { noHash_literal. }
  destruct (Get_trailing_hash Fixture.upper env c Fixture.ctx "test/app" Hx eq_refl)
    as (Hsame & _ & Hwhole).
  split; [exact Hx|]. split; [exact Hsame|].
  apply Hwhole; reflexivity.
Defined.

(** * Further properties of the code *)

(** ** Get, the cache and Vault *)

(** The lookup that [Get] performs once the override has not answered. *)
Lemma Get_through_cache (upper : string -> string) env (c : confyImpl) ctx (p key field : string) :
  override upper c env (strings.TrimPrefix p "secret/") = None ->
  resolve p = Some (key, field) ->
  Get upper env c ctx p =
    let v := cache_Get (cache c) (client c) key (createLoader ctx) in
    match item v with
    | None =>
        match errBucket v with
        | Some e => (Return (None, Some e), withClient c v)
        | None => (Return (None, Some (errors_New "no value found")), withClient c v)
        end
    | Some doc => (Return (project doc key field), withClient c v)
    end.
Proof. intros Hov Hres. unfold resolve in Hres. unfold Get. by rewrite Hov, Hres. Qed.

(** A lookup that finds a document leaves it in the cache under its key. *)
Lemma cache_Get_item_cached (ca : ttlCache) (cl : vaultClient) ctx (key : string)
    (doc : document) :
  item (cache_Get ca cl key (createLoader ctx)) = Some doc ->
  items (cacheAfter (cache_Get ca cl key (createLoader ctx))) !! key = Some doc.
Proof.
  unfold cache_Get. destruct (items ca !! key) as [d|] eqn:Hitem; cbn.
  - by intros [= <-].
  - unfold createLoader, client_KVv1_Get. destruct (kvGet cl ctx key); cbn; [|done].
    intros [= <-]. apply lookup_insert_eq.
Qed.

(** The three ways through the cache, with the client each leaves. *)
Lemma Get_hit (upper : string -> string)
    env (c : confyImpl) ctx (p key field : string) (data : document) :
  override upper c env (strings.TrimPrefix p "secret/") = None ->
  resolve p = Some (key, field) ->
  items (cache c) !! key = Some data ->
  Get upper env c ctx p
    = (Return (project data key field),
       {| cache := cache_hit (cache c); envOverride := envOverride c;
          client := client c; ttl := ttl c; closed := closed c |}).
Proof.
  intros Hov Hres Hitem. rewrite (Get_through_cache upper _ _ _ _ _ _ Hov Hres).
  unfold cache_Get. rewrite Hitem. by cbn.
Qed.

Lemma Get_miss_secret (upper : string -> string)
    env (c : confyImpl) ctx (p key field : string) (data : document) :
  override upper c env (strings.TrimPrefix p "secret/") = None ->
  resolve p = Some (key, field) ->
  items (cache c) !! key = None ->
  kvGet (client c) ctx key = KvSecret data ->
  Get upper env c ctx p
    = (Return (project data key field),
       {| cache := cache_Set (cache_miss (cache c)) key data;
          envOverride := envOverride c;
          client := snd (client_KVv1_Get (client c) ctx key);
          ttl := ttl c; closed := closed c |}).
Proof.
  intros Hov Hres Hitem Hkv. rewrite (Get_through_cache upper _ _ _ _ _ _ Hov Hres).
  unfold cache_Get. rewrite Hitem. unfold createLoader, client_KVv1_Get.
  rewrite Hkv. by cbn.
Qed.

Lemma Get_miss_error (upper : string -> string)
    env (c : confyImpl) ctx (p key field cause : string) :
  override upper c env (strings.TrimPrefix p "secret/") = None ->
  resolve p = Some (key, field) ->
  items (cache c) !! key = None ->
  kvGet (client c) ctx key = KvError cause ->
  Get upper env c ctx p
    = (Return (None, Some {| Error := "could not get secret from Vault: " +:+ cause;
                             Unwrap := Some cause |}),
       {| cache := cache_miss (cache c); envOverride := envOverride c;
          client := snd (client_KVv1_Get (client c) ctx key);
          ttl := ttl c; closed := closed c |}).
Proof.
  intros Hov Hres Hitem Hkv. rewrite (Get_through_cache upper _ _ _ _ _ _ Hov Hres).
  unfold cache_Get. rewrite Hitem. unfold createLoader, client_KVv1_Get.
  rewrite Hkv. by cbn.
Qed.

(** X1. When the override has not answered, the document is not cached
    and Vault answers with an error, [Get] returns a nil value and the
    error ["could not get secret from Vault: <cause>"] wrapping the
    cause.  Exactly one request, for the document key, has gone to
    Vault, and the cache holds the same items as before: a failed load
    stores nothing. *)
Theorem Get_store_error (upper : string -> string)
    env (c : confyImpl) ctx (p key field cause : string) :
  override upper c env (strings.TrimPrefix p "secret/") = None ->
  resolve p = Some (key, field) ->
  items (cache c) !! key = None ->
  kvGet (client c) ctx key = KvError cause ->
  fst (Get upper env c ctx p)
    = Return (None, Some {| Error := "could not get secret from Vault: " +:+ cause;
                            Unwrap := Some cause |}) /\
  requests (client (snd (Get upper env c ctx p))) = (requests (client c) ++ [key])%list /\
  items (cache (snd (Get upper env c ctx p))) = items (cache c) /\
  misses (cache (snd (Get upper env c ctx p))) = S (misses (cache c)).
Proof.
  intros Hov Hres Hitem Hkv.
  by rewrite (Get_miss_error upper _ _ _ _ _ _ _ Hov Hres Hitem Hkv).
Qed.

Lemma Get_store_error_witness :
  let c := New Fixture.vault 0 false in
  fst (Get Fixture.upper ∅ c Fixture.ctx "test/non-existent")
    = Return (None, Some {| Error := "could not get secret from Vault: secret not found";
                            Unwrap := Some "secret not found" |}) /\
  requests (client (snd (Get Fixture.upper ∅ c Fixture.ctx "test/non-existent")))
    = ["test/non-existent"] /\
  items (cache (snd (Get Fixture.upper ∅ c Fixture.ctx "test/non-existent"))) = ∅.
Proof.
  intros c.
  destruct (Get_store_error Fixture.upper ∅ c Fixture.ctx "test/non-existent" "test/non-existent" ""
              "secret not found" eq_refl eq_refl eq_refl eq_refl)
    as (Hres & Hreq & Hitems & _).
  split; [exact Hres|]. split; [exact Hreq|exact Hitems].
Defined.

(** X2. When the override has not answered, the document is not cached
    and Vault answers with a document, [Get] answers from that document
    (the field, or the whole of it), has sent exactly one request, for
    the document key, and has stored the document in the cache under
    that key. *)
Theorem Get_loads_and_caches (upper : string -> string)
    env (c : confyImpl) ctx (p key field : string)
    (data : document) :
  override upper c env (strings.TrimPrefix p "secret/") = None ->
  resolve p = Some (key, field) ->
  items (cache c) !! key = None ->
  kvGet (client c) ctx key = KvSecret data ->
  fst (Get upper env c ctx p) = Return (project data key field) /\
  requests (client (snd (Get upper env c ctx p))) = (requests (client c) ++ [key])%list /\
  items (cache (snd (Get upper env c ctx p))) = <[key := data]> (items (cache c)).
Proof.
  intros Hov Hres Hitem Hkv.
  by rewrite (Get_miss_secret upper _ _ _ _ _ _ _ Hov Hres Hitem Hkv).
Qed.

Lemma Get_loads_and_caches_witness :
  let c := New Fixture.vault 0 false in
  fst (Get Fixture.upper ∅ c Fixture.ctx "test/app#user")
    = Return (Some {| val := AString "fake-user" |}, None) /\
  requests (client (snd (Get Fixture.upper ∅ c Fixture.ctx "test/app#user"))) = ["test/app"] /\
  items (cache (snd (Get Fixture.upper ∅ c Fixture.ctx "test/app#user"))) !! "test/app"
    = Some Fixture.app.
Proof.
  intros c.
  destruct (Get_loads_and_caches Fixture.upper ∅ c Fixture.ctx "test/app#user" "test/app" "user"
              Fixture.app eq_refl eq_refl eq_refl eq_refl)
    as (Hres & Hreq & Hitems).
  split; [exact Hres|]. split; [exact Hreq|]. rewrite Hitems. reflexivity.
Defined.

(** X3. When the override has not answered and the document is in the
    cache, [Get] answers from the cached document without any request to
    Vault: the Vault client and the cached items are as before, and the
    cache has counted one more hit. *)
Theorem Get_cache_hit (upper : string -> string)
    env (c : confyImpl) ctx (p key field : string) (data : document) :
  override upper c env (strings.TrimPrefix p "secret/") = None ->
  resolve p = Some (key, field) ->
  items (cache c) !! key = Some data ->
  fst (Get upper env c ctx p) = Return (project data key field) /\
  client (snd (Get upper env c ctx p)) = client c /\
  items (cache (snd (Get upper env c ctx p))) = items (cache c) /\
  hits (cache (snd (Get upper env c ctx p))) = S (hits (cache c)).
Proof.
  intros Hov Hres Hitem. by rewrite (Get_hit upper _ _ _ _ _ _ _ Hov Hres Hitem).
Qed.

Lemma Get_cache_hit_witness :
  let c := snd (Get Fixture.upper ∅ (New Fixture.unreachable 0 false) Fixture.ctx "test/app") in
  let warm := {| cache := cache_Set (cache c) "test/app" Fixture.app;
                 envOverride := false; client := client c; ttl := ttl c;
                 closed := false |} in
  fst (Get Fixture.upper ∅ warm Fixture.ctx "test/app#password")
    = Return (Some {| val := AString "fake-password" |}, None) /\
  client (snd (Get Fixture.upper ∅ warm Fixture.ctx "test/app#password")) = client warm.
Proof.
  intros c warm.
  destruct (Get_cache_hit Fixture.upper ∅ warm Fixture.ctx "test/app#password" "test/app" "password"
              Fixture.app eq_refl eq_refl eq_refl)
    as (Hres & Hclient & _).
  split; [exact Hres|exact Hclient].
Defined.



(** X5. Once the cache has dropped the item of a document key, the next
    [Get] for it (the override not answering) sends one request to Vault
    and answers from what Vault holds now: the document's field or whole,
    or the wrapped error. *)
Theorem Get_after_expiry (upper : string -> string) env (c : confyImpl) ctx (p key field : string) :
  override upper c env (strings.TrimPrefix p "secret/") = None ->
  resolve p = Some (key, field) ->
  requests (client (snd (Get upper env (expired c key) ctx p)))
    = (requests (client c) ++ [key])%list /\
  fst (Get upper env (expired c key) ctx p)
    = match kvGet (client c) ctx key with
      | KvSecret data => Return (project data key field)
      | KvError cause =>
          Return (None, Some {| Error := "could not get secret from Vault: " +:+ cause;
                                Unwrap := Some cause |})
      end.
Proof.
  intros Hov Hres.
  assert (override upper (expired c key) env (strings.TrimPrefix p "secret/") = None) as Hov'
    by exact Hov.
  assert (items (cache (expired c key)) !! key = None) as Hgone
    by apply lookup_delete_eq.
  destruct (kvGet (client c) ctx key) as [data|cause] eqn:Hkv.
  - by rewrite (Get_miss_secret upper env (expired c key) ctx p key field data
                   Hov' Hres Hgone Hkv).
  - by rewrite (Get_miss_error upper env (expired c key) ctx p key field cause
                   Hov' Hres Hgone Hkv).
Qed.

Lemma Get_after_expiry_witness :
  let c := snd (Get Fixture.upper ∅ (New Fixture.vault 0 false) Fixture.ctx "test/app#user") in
  requests (client c) = ["test/app"] /\
  requests (client (snd (Get Fixture.upper ∅ (expired c "test/app") Fixture.ctx "test/app#user")))
    = ["test/app"; "test/app"] /\
  fst (Get Fixture.upper ∅ (expired c "test/app") Fixture.ctx "test/app#user")
    = Return (Some {| val := AString "fake-user" |}, None).
Proof.
  intros c.
  destruct (Get_after_expiry Fixture.upper ∅ c Fixture.ctx "test/app#user" "test/app" "user"
              eq_refl eq_refl) as (Hreq & Hres).
  split; [reflexivity|]. split; [exact Hreq|exact Hres].
Defined.

(** ** What Get leaves alone *)

(** X6. Whatever its arguments, [Get] keeps the client's settings
    ([envOverride], [ttl], [closed], the cache's TTL and running state,
    the stop and close counts, the store behind the Vault client); it
    sends Vault no request or exactly one; and every item that was in
    the cache is still there with the same document. *)
Theorem Get_frame (upper : string -> string) env (c : confyImpl) ctx (p : string) :
  let c' := snd (Get upper env c ctx p) in
  envOverride c' = envOverride c /\ ttl c' = ttl c /\ closed c' = closed c /\
  cacheTTL (cache c') = cacheTTL (cache c) /\
  started (cache c') = started (cache c) /\
  stopCalls (cache c') = stopCalls (cache c) /\
  closeCalls (client c') = closeCalls (client c) /\
  kvGet (client c') = kvGet (client c) /\
  (requests (client c') = requests (client c) \/
   exists key, requests (client c') = (requests (client c) ++ [key])%list) /\
  (forall k doc, items (cache c) !! k = Some doc -> items (cache c') !! k = Some doc).
Proof.
  unfold Get. destruct (override upper c env _) as [envValue|]; cbn.
  { repeat split; auto. }
  destruct (splitPath _) as [[key field]|]; cbn.
  2: { repeat split; auto. }
  unfold cache_Get. destruct (items (cache c) !! key) as [data|] eqn:Hitem; cbn.
  { repeat split; auto. }
  unfold createLoader, client_KVv1_Get.
  destruct (kvGet (client c) ctx key) as [data|cause]; cbn.
  - repeat split; eauto. intros k doc Hk.
    rewrite lookup_insert_ne; [done|]. intros ->. by rewrite Hitem in Hk.
  - repeat split; eauto.
Qed.

Lemma Get_frame_witness :
  let c := snd (Get Fixture.upper ∅ (New Fixture.vault 0 false) Fixture.ctx "test/app#user") in
  items (cache c) !! "test/app" = Some Fixture.app /\
  items (cache (snd (Get Fixture.upper ∅ c Fixture.ctx "test/types#s"))) !! "test/app"
    = Some Fixture.app.
Proof.
  intros c.
  destruct (Get_frame Fixture.upper ∅ c Fixture.ctx "test/types#s")
    as (_ & _ & _ & _ & _ & _ & _ & _ & _ & Hkept).
  split; [reflexivity|]. apply Hkept. reflexivity.
Defined.

(** X7. [Get] never panics and returns exactly one of a value and an
    error, never both and never neither; [GetOrDefault] therefore always
    returns a value that is not nil. *)
Theorem Get_value_xor_error (upper : string -> string)
    env (c : confyImpl) ctx (p fallback : string) :
  ((exists v, fst (Get upper env c ctx p) = Return (Some v, None)) \/
   (exists e, fst (Get upper env c ctx p) = Return (None, Some e))) /\
  exists v ok, fst (GetOrDefault upper env c ctx p fallback) = Return (Some v, ok).
Proof.
  assert ((exists v, fst (Get upper env c ctx p) = Return (Some v, None)) \/
          (exists e, fst (Get upper env c ctx p) = Return (None, Some e))) as HGet.
  { unfold Get. destruct (override upper c env _) as [envValue|]; [left; by eexists|].
    destruct (splitPath_total (strings.TrimPrefix p "secret/")) as (key & field & ->).
    destruct (item _) as [doc|].
    - cbn [fst]. unfold project. destruct (negb _); [|left; by eexists].
      destruct (doc !! field); [left|right]; by eexists.
    - destruct (errBucket _); right; by eexists. }
  split; [exact HGet|].
  unfold GetOrDefault.
  destruct (Get upper env c ctx p) as [r c']. cbn [fst] in *.
  destruct HGet as [[v ->]|[e ->]]; cbn; eauto.
Qed.

(** X8. [Get] reads at most one environment variable, the one named by
    [envKey] of the stripped path (upper-cased as [strings.ToUpper] does
    it, Unicode included), and none at all when the override is off:
    two environments that agree on that variable (or any two, with the
    override off) give the same result and the same client. *)
Theorem Get_reads_one_variable (upper : string -> string)
    env env' (c : confyImpl) ctx (p : string) :
  envOverride c = false \/
    os_Getenv env (envKey upper (strings.TrimPrefix p "secret/"))
      = os_Getenv env' (envKey upper (strings.TrimPrefix p "secret/")) ->
  Get upper env c ctx p = Get upper env' c ctx p.
Proof.
  intros Hsame. unfold Get, override.
  destruct Hsame as [-> | ->]; reflexivity.
Qed.

Lemma Get_reads_one_variable_witness :
  let c := New Fixture.vault 0 true in
  let env : gmap string string := {[ "TEST_APP_USER" := "other-value" ]} in
  let env' : gmap string string :=
    {[ "TEST_APP_USER" := "other-value"; "TEST_APP" := "ignored"; "HOME" := "/root" ]} in
  let bytewise : string := "T" +:+ String "195" (String "169" "") +:+ "ST_APP" in
  let accent : gmap string string := {[ Fixture.ACCENTED := "other-value" ]} in
  let accent' : gmap string string :=
    {[ Fixture.ACCENTED := "other-value"; bytewise := "ignored" ]} in
  Get Fixture.upper env c Fixture.ctx "test/app#user"
    = Get Fixture.upper env' c Fixture.ctx "test/app#user" /\
  Get Fixture.upper env (New Fixture.vault 0 false) Fixture.ctx "test/app#user"
    = Get Fixture.upper ∅ (New Fixture.vault 0 false) Fixture.ctx "test/app#user" /\
  Get Fixture.upper accent c Fixture.ctx Fixture.accented
    = Get Fixture.upper accent' c Fixture.ctx Fixture.accented.
Proof.
  intros c env env' bytewise accent accent'. split; [|split].
  - apply (Get_reads_one_variable Fixture.upper env env' c Fixture.ctx "test/app#user").
    right. reflexivity.
  - apply (Get_reads_one_variable Fixture.upper env ∅ (New Fixture.vault 0 false)
             Fixture.ctx "test/app#user").
    left. reflexivity.
  - apply (Get_reads_one_variable Fixture.upper accent accent' c Fixture.ctx
             Fixture.accented).
    right. reflexivity.
Defined.

(** X9. [Get] does not look at [closed]: on a client that has been
    closed it returns what it returns on the open one, leaves the same
    items in the cache and sends Vault the same requests. *)
Theorem Get_after_Close (upper : string -> string) env (c : confyImpl) ctx (p : string) :
  fst (Get upper env (Close c) ctx p) = fst (Get upper env c ctx p) /\
  items (cache (snd (Get upper env (Close c) ctx p)))
    = items (cache (snd (Get upper env c ctx p))) /\
  requests (client (snd (Get upper env (Close c) ctx p)))
    = requests (client (snd (Get upper env c ctx p))).
Proof.
  unfold Close. destruct (closed c); cbn [negb]; [done|].
  unfold Get, override. cbn [envOverride].
  destruct (if envOverride c then _ else _) as [envValue|]; [done|].
  destruct (splitPath _) as [[key field]|]; [|done].
  unfold cache_Get. cbn [cache client cache_Stop client_Close items].
  destruct (items (cache c) !! key) as [data|]; [done|].
  unfold createLoader, client_KVv1_Get, client_Close. cbn [kvGet requests closeCalls].
  destruct (kvGet (client c) ctx key); repeat split; reflexivity.
Qed.

(** ** The shape of paths and variable names *)

Lemma envKey_byte (c : ascii) :
  let u := strings.upperByte (replacerByte c) in
  u <> "/"%char /\ u <> "#"%char /\
  (97 <=? nat_of_ascii u)%nat && (nat_of_ascii u <=? 122)%nat = false /\
  strings.upperByte (replacerByte u) = u /\
  (nat_of_ascii u <? 128)%nat = (nat_of_ascii c <? 128)%nat /\
  (nat_of_ascii (replacerByte c) <? 128)%nat = (nat_of_ascii c <? 128)%nat.
Proof.
  destruct c as [[] [] [] [] [] [] [] []]; vm_compute; repeat split; discriminate.
Qed.

Lemma mapBytes_append (f : ascii -> ascii) (a b : string) :
  strings.mapBytes f (a +:+ b) = strings.mapBytes f a +:+ strings.mapBytes f b.
Proof.
  induction a as [|c a IH]; [done|].
  change (String c a +:+ b) with (String c (a +:+ b)).
  cbn [strings.mapBytes]. rewrite IH. done.
Qed.

Lemma isASCII_append (a b : string) :
  strings.isASCII (a +:+ b) = strings.isASCII a && strings.isASCII b.
Proof.
  induction a as [|c a IH]; [done|].
  change (String c a +:+ b) with (String c (a +:+ b)).
  cbn [strings.isASCII]. rewrite IH. by rewrite andb_assoc.
Qed.

Lemma isASCII_Replace (s : string) :
  strings.isASCII (replacer_Replace s) = strings.isASCII s.
Proof.
  unfold replacer_Replace.
  induction s as [|c s IH]; [done|]. cbn [strings.mapBytes strings.isASCII].
  rewrite IH. f_equal. apply envKey_byte.
Qed.

(** On ASCII text the name is computed byte by byte, and is ASCII. *)
Lemma envKey_ascii (upper : string -> string) (s : string) :
  strings.isASCII s = true ->
  envKey upper s = strings.mapBytes strings.upperByte (strings.mapBytes replacerByte s) /\
  strings.isASCII (envKey upper s) = true.
Proof.
  intros Hs. unfold envKey, strings.ToUpper. rewrite isASCII_Replace, Hs.
  split; [done|]. unfold replacer_Replace. rewrite <- Hs. clear Hs.
  induction s as [|c s IH]; [done|]. cbn [strings.mapBytes strings.isASCII].
  rewrite IH. f_equal. apply envKey_byte.
Qed.

(** X10. For a path that is ASCII throughout, the variable name derived
    from it has the path's length and holds no ['/'], no ['#'] and no
    lower-case ASCII letter, and deriving a name from a name changes
    nothing.  For every path, ASCII or not, a field delimiter and a path
    delimiter are not told apart: [x#y] and [x/y] derive the same
    variable; when [x] and [y] are ASCII it is the names of [x] and [y]
    joined by ['_']. *)
Theorem envKey_shape (upper : string -> string) (x y : string) :
  (strings.isASCII x = true ->
   String.length (envKey upper x) = String.length x /\
   (forall c, In c (list_ascii_of_string (envKey upper x)) ->
      c <> "/"%char /\ c <> "#"%char /\
      (97 <=? nat_of_ascii c)%nat && (nat_of_ascii c <=? 122)%nat = false) /\
   envKey upper (envKey upper x) = envKey upper x) /\
  envKey upper (x +:+ "#" +:+ y) = envKey upper (x +:+ "/" +:+ y) /\
  (strings.isASCII x = true -> strings.isASCII y = true ->
   envKey upper (x +:+ "#" +:+ y) = envKey upper x +:+ "_" +:+ envKey upper y).
Proof.
  split; [|split].
  - intros Hx. destruct (envKey_ascii upper x Hx) as (Hkey & Hascii).
    split; [|split].
    + rewrite Hkey. clear. induction x as [|c x IH]; [done|].
      cbn [strings.mapBytes String.length]. by rewrite IH.
    + rewrite Hkey. clear. induction x as [|c x IH]; [done|].
      cbn [strings.mapBytes list_ascii_of_string In].
      intros u [<-|Hin]; [|by apply IH].
      destruct (envKey_byte c) as (H1 & H2 & H3 & _). done.
    + destruct (envKey_ascii upper _ Hascii) as (-> & _). rewrite Hkey. clear.
      induction x as [|c x IH]; [done|]. cbn [strings.mapBytes].
      rewrite IH. f_equal. apply envKey_byte.
  - unfold envKey, replacer_Replace. by rewrite !mapBytes_append.
  - intros Hx Hy.
    assert (strings.isASCII (x +:+ "#" +:+ y) = true) as Hxy.
    { rewrite !isASCII_append, Hx, Hy. reflexivity. }
    destruct (envKey_ascii upper _ Hxy) as (-> & _).
    destruct (envKey_ascii upper _ Hx) as (-> & _).
    destruct (envKey_ascii upper _ Hy) as (-> & _).
    by rewrite !mapBytes_append.
Qed.

Lemma envKey_shape_witness :
  envKey Fixture.upper "test/app#user" = "TEST_APP_USER" /\
  "_"%char <> "/"%char /\
  envKey Fixture.upper ("test/app" +:+ "#" +:+ "user")
    = envKey Fixture.upper "test/app" +:+ "_" +:+ envKey Fixture.upper "user".
Proof.
  destruct (envKey_shape Fixture.upper "test/app" "user") as (_ & _ & Hjoin).
  destruct (envKey_shape Fixture.upper "test/app#user" "") as (Hshape & _).
  destruct (Hshape eq_refl) as (_ & Hbytes & _).
  split; [reflexivity|]. split.
  - apply (Hbytes "_"%char). vm_compute. tauto.
  - apply Hjoin; reflexivity.
Defined.

Lemma hash_cases (s : string) :
  noHash s \/ exists x y, noHash x /\ s = x +:+ "#" +:+ y.
Proof.
  induction s as [|c s IH].
  - left. unfold noHash. cbn. tauto.
  - destruct (Ascii.eqb_spec c "#") as [->|Hc].
    + right. exists "", s. split; [|done]. unfold noHash. cbn. tauto.
    + destruct IH as [Hs|(x & y & Hx & ->)].
      * left. unfold noHash in *. cbn. intros [Heq|Hin]; [by apply Hc|by apply Hs].
      * right. exists (String c x), y. split; [|done].
        unfold noHash in *. cbn. intros [Heq|Hin]; [by apply Hc|by apply Hx].
Qed.

(** X11. Whatever the split of lines 191-196 returns can be put back
    together: the document key holds no ['#'], and the path is either
    the key alone (then it holds no ['#'] and the field name is empty)
    or the key, one ['#'] and the field name. *)
Theorem splitPath_rejoin (p key field : string) :
  splitPath p = Some (key, field) ->
  noHash key /\
  ((noHash p /\ p = key /\ field = "") \/ p = key +:+ "#" +:+ field).
Proof.
  intros Hsplit. destruct (hash_cases p) as [Hp|(x & y & Hx & ->)].
  - rewrite (splitPath_noHash p Hp) in Hsplit. injection Hsplit as <- <-.
    split; [done|]. by left.
  - rewrite (splitPath_first_hash x y Hx) in Hsplit. injection Hsplit as <- <-.
    split; [done|]. by right.
Qed.

Lemma splitPath_rejoin_witness :
  noHash "test/app" /\ "test/app#user#x" = "test/app" +:+ "#" +:+ "user#x".
Proof.
  destruct (splitPath_rejoin "test/app#user#x" "test/app" "user#x" eq_refl)
    as (Hkey & [(_ & Habs & _)|Hjoin]).
  - discriminate Habs.
  - split; [exact Hkey|exact Hjoin].
Defined.

(** ** New *)

Lemma wrapInt64_in_range (z : Z) :
  (- 2 ^ 63 <= z < 2 ^ 63)%Z -> wrapInt64 z = z.
Proof. intros Hz. unfold wrapInt64. rewrite Z.mod_small; lia. Qed.

Lemma wrapInt64_overflow (z : Z) :
  (2 ^ 63 <= z < 2 ^ 64)%Z -> wrapInt64 z = (z - 2 ^ 64)%Z.
Proof.
  intros Hz. unfold wrapInt64.
  replace (z + 2 ^ 63)%Z with ((z - 2 ^ 63) + 1 * 2 ^ 64)%Z by lia.
  rewrite Z.mod_add by lia. rewrite Z.mod_small; lia.
Qed.

(** X12. Whatever TTL is asked for, the client that [New] returns has a
    TTL of at least [MinimumCacheTTL], which is the requested one, the
    default or the floor.  The client is open, holds the given Vault
    client and override flag, and its cache is running, empty and built
    with the same TTL.  As long as the requested TTL leaves room for one
    more second in an [int64], the watch loops wait the TTL plus one
    second, at least 31 seconds, between polls; for a larger TTL the
    sum wraps around and the wait is negative. *)
Theorem New_invariants (cl : vaultClient) (d : Z) (ov : bool) :
  let c := New cl d ov in
  (MinimumCacheTTL <= ttl c)%Z /\
  (ttl c = d \/ ttl c = DefaultCacheTTL \/ ttl c = MinimumCacheTTL) /\
  closed c = false /\ client c = cl /\ envOverride c = ov /\
  started (cache c) = true /\ items (cache c) = ∅ /\
  stopCalls (cache c) = 0%nat /\ cacheTTL (cache c) = ttl c /\
  ((d <= 2 ^ 63 - 1 - Second)%Z ->
   pollInterval c = (ttl c + Second)%Z /\ (31 * Second <= pollInterval c)%Z) /\
  ((2 ^ 63 - 1 - Second < d < 2 ^ 63)%Z ->
   pollInterval c = (d + Second - 2 ^ 64)%Z /\ (pollInterval c < 0)%Z).
Proof.
  unfold New, new, pollInterval.
  cbn [ttl cache closed client envOverride cache_Start ttlcache_New started items
       stopCalls cacheTTL].
  assert (DefaultCacheTTL = 300000000000%Z) as HD by reflexivity.
  assert (MinimumCacheTTL = 30000000000%Z) as HM by reflexivity.
  assert (Second = 1000000000%Z) as HS by reflexivity.
  set (t0 := if (d =? 0)%Z then DefaultCacheTTL else d).
  set (t := if (t0 <? MinimumCacheTTL)%Z then MinimumCacheTTL else t0).
  assert ((MinimumCacheTTL <= t)%Z /\
          (t = d \/ t = DefaultCacheTTL \/ t = MinimumCacheTTL) /\
          ((d <= 2 ^ 63 - 1 - Second)%Z -> (t <= 2 ^ 63 - 1 - Second)%Z) /\
          ((2 ^ 63 - 1 - Second < d)%Z -> t = d)) as (Hfloor & Hwhich & Hroom & Hbig).
  { subst t t0. destruct (Z.eqb_spec d 0) as [->|Hnz].
    - destruct (Z.ltb_spec DefaultCacheTTL MinimumCacheTTL); [lia|].
      repeat split; auto; lia.
    - destruct (Z.ltb_spec d MinimumCacheTTL); repeat split; auto; lia. }
  split; [exact Hfloor|]. split; [exact Hwhich|].
  do 7 (split; [reflexivity|]).
  split.
  - intros Hd. specialize (Hroom Hd). rewrite wrapInt64_in_range by lia. lia.
  - intros Hd. rewrite Hbig by lia. rewrite wrapInt64_overflow by lia. lia.
Qed.

Lemma New_invariants_witness :
  pollInterval (New Fixture.vault (2 * Minute) false) = (121 * Second)%Z /\
  (pollInterval (New Fixture.vault (2 ^ 63 - 1) false) < 0)%Z.
Proof.
  split.
  - destruct (New_invariants Fixture.vault (2 * Minute) false)
      as (_ & _ & _ & _ & _ & _ & _ & _ & _ & Hroom & _).
    destruct Hroom as (Hpoll & _); [discriminate|]. rewrite Hpoll. reflexivity.
  - destruct (New_invariants Fixture.vault (2 ^ 63 - 1) false)
      as (_ & _ & _ & _ & _ & _ & _ & _ & _ & _ & Hwrap).
    destruct Hwrap as (_ & Hneg); [split; reflexivity|]. exact Hneg.
Defined.

(** ** Watch: start, stop and deliveries *)

(** X13. The goroutine of [Watch] always gets going: it starts looping
    with nothing delivered, after exactly the one [Get] of the first
    fetch.  Its baseline is the fetched value when that [Get] succeeds,
    and a value wrapping the empty string when it fails. *)
Theorem watchStart_seeds (upper : string -> string) env (c : confyImpl) (path : string) :
  exists w,
    watchStart upper env c path = (Return w, snd (Get upper env c context_Background path)) /\
    delivered w = [] /\ looping w = true /\
    ((exists v, fst (Get upper env c context_Background path) = Return (Some v, None) /\
                oldValue w = Some v) \/
     (exists e, fst (Get upper env c context_Background path) = Return (None, Some e) /\
                oldValue w = Some {| val := AString "" |})).
Proof.
  unfold watchStart.
  destruct (Get_returns upper env c context_Background path) as ([v err] & c' & HGet).
  rewrite HGet. cbn [fst snd]. eexists. split; [reflexivity|]. cbn.
  split; [done|]. split; [done|].
  assert (fst (Get upper env c context_Background path) = Return (v, err)) as Hfst
    by by rewrite HGet.
  revert Hfst. unfold Get.
  destruct (override upper c env _) as [envValue|].
  { intros [= <- <-]. left. by eexists. }
  destruct (splitPath _) as [[key field]|]; [|done].
  destruct (item _) as [doc|].
  - cbn [fst]. unfold project. destruct (negb _).
    + destruct (doc !! field); intros [= <- <-]; [left|right]; by eexists.
    + intros [= <- <-]. left. by eexists.
  - destruct (errBucket _); intros [= <- <-]; right; by eexists.
Qed.

Lemma watchLoop_stopped (upper : string -> string)
    (comparator : Value -> Value -> bool) (path : string)
    (schedule : list event) (c : confyImpl) (w : watcher) :
  looping w = false -> fst (watchLoop upper comparator path schedule c w) = Return w.
Proof.
  intros Hstopped. revert c.
  induction schedule as [|[env sel|f] schedule IH]; intros c; cbn [watchLoop].
  - done.
  - rewrite Hstopped. apply IH.
  - apply IH.
Qed.

(** X14. The stop signal ends the watch for good.  The iteration that
    receives it makes no [Get] and calls no callback, and whatever is
    scheduled after it, the watcher stays as it was at that moment: same
    baseline, same deliveries, not looping. *)
Theorem watch_stop_is_final (upper : string -> string)
    (comparator : Value -> Value -> bool) (path : string) env
    (schedule : list event) (c : confyImpl) (w : watcher) :
  snd (watchIter upper comparator path env StopReceived c w) = c /\
  fst (watchLoop upper comparator path (Iteration env StopReceived :: schedule) c w)
    = Return {| oldValue := oldValue w; delivered := delivered w; looping := false |}.
Proof.
  split; [reflexivity|].
  cbn [watchLoop]. destruct (looping w) eqn:Hloop.
  - cbn [watchIter]. by apply watchLoop_stopped.
  - rewrite watchLoop_stopped by done. destruct w as [old del loop].
    cbn in Hloop. by subst loop.
Qed.

(** X15. Along any schedule the loop of [Watch] runs without panic and
    only ever appends to what it has delivered: the callback is called
    at most once per timer iteration, earlier deliveries are never
    changed, and with a comparator that is never true nothing is
    delivered at all. *)
Theorem watchLoop_deliveries (upper : string -> string)
    (comparator : Value -> Value -> bool) (path : string)
    (schedule : list event) (c : confyImpl) (w : watcher) :
  exists w' c' fresh,
    watchLoop upper comparator path schedule c w = (Return w', c') /\
    delivered w' = (delivered w ++ fresh)%list /\
    (length fresh <= timerIterations schedule)%nat /\
    ((forall old new, comparator old new = false) -> fresh = []).
Proof.
  revert c w.
  induction schedule as [|[env sel|f] schedule IH]; intros c w; cbn [watchLoop].
  - exists w, c, []. rewrite app_nil_r. by repeat split.
  - destruct (looping w).
    + destruct sel; cbn [watchIter timerIterations].
      * destruct (Get_returns upper env c context_Background path) as ([v err] & c1 & ->).
        destruct err as [e|].
        -- destruct (IH c1 w) as (w' & c' & fresh & -> & Hdel & Hlen & Hnever).
           exists w', c', fresh. repeat split; auto.
        -- destruct (IH c1 {| oldValue := v;
                              delivered := if comparator (oldValue w) v
                                           then (delivered w ++ [v])%list
                                           else delivered w;
                              looping := true |})
             as (w' & c' & fresh & -> & Hdel & Hlen & Hnever).
           cbn [delivered] in Hdel.
           destruct (comparator (oldValue w) v) eqn:Hcmp.
           ++ exists w', c', (v :: fresh). split; [done|].
              split; [by rewrite Hdel, <- app_assoc|].
              split; [cbn; lia|]. intros Hfalse. by rewrite Hfalse in Hcmp.
           ++ exists w', c', fresh. repeat split; auto.
      * destruct (IH c {| oldValue := oldValue w; delivered := delivered w;
                          looping := false |})
          as (w' & c' & fresh & -> & Hdel & Hlen & Hnever).
        exists w', c', fresh. by repeat split.
    + destruct (IH c w) as (w' & c' & fresh & -> & Hdel & Hlen & Hnever).
      exists w', c', fresh. repeat split; auto.
      destruct sel; cbn [timerIterations]; lia.
  - destruct (IH (f c) w) as (w' & c' & fresh & -> & Hdel & Hlen & Hnever).
    exists w', c', fresh. by repeat split.
Qed.

Lemma watchLoop_deliveries_witness :
  let always (old new : Value) := true in
  let w := {| oldValue := Some {| val := AString "" |}; delivered := [];
              looping := true |} in
  let schedule := [Iteration ∅ TimerFired; Iteration ∅ TimerFired;
                   Iteration ∅ StopReceived; Iteration ∅ TimerFired] in
  exists w' c' fresh,
    watchLoop Fixture.upper always "test/app#user" schedule (New Fixture.vault 0 false) w
      = (Return w', c') /\
    delivered w' = fresh /\ (length fresh <= 3)%nat.
Proof.
  intros always w schedule.
  destruct (watchLoop_deliveries Fixture.upper always "test/app#user" schedule
              (New Fixture.vault 0 false) w)
    as (w' & c' & fresh & Hrun & Hdel & Hlen & _).
  exists w', c', fresh. split; [exact Hrun|]. split; [exact Hdel|exact Hlen].
Defined.

(** ** Coercions *)

Lemma existsb_eqb_In (s : string) (l : list string) :
  existsb (String.eqb s) l = true <-> In s l.
Proof.
  rewrite existsb_exists. split.
  - intros (x & Hin & Heq). apply String.eqb_eq in Heq. by subst.
  - intros Hin. exists s. split; [done|apply String.eqb_refl].
Qed.

Lemma ParseBool_true (s : string) :
  strconv.ParseBool s = Some true <-> In s ["1"; "t"; "T"; "true"; "TRUE"; "True"].
Proof.
  unfold strconv.ParseBool. rewrite <- existsb_eqb_In.
  destruct (existsb _ ["1"; "t"; "T"; "true"; "TRUE"; "True"]); [done|].
  destruct (existsb _ _); split; intros H; discriminate H.
Qed.

Lemma ParseBool_false (s : string) :
  strconv.ParseBool s = Some false <-> In s ["0"; "f"; "F"; "false"; "FALSE"; "False"].
Proof.
  unfold strconv.ParseBool. rewrite <- existsb_eqb_In.
  destruct (existsb _ ["1"; "t"; "T"; "true"; "TRUE"; "True"]) eqn:Htrue.
  - split; [done|]. intros Hfalse. exfalso.
    apply existsb_eqb_In in Htrue. apply existsb_eqb_In in Hfalse.
    cbn in Htrue, Hfalse.
    repeat destruct Htrue as [Htrue|Htrue]; try done; subst s;
      repeat destruct Hfalse as [Hfalse|Hfalse]; try done; discriminate Hfalse.
  - destruct (existsb (String.eqb s) ["0"; "f"; "F"; "false"; "FALSE"; "False"]);
      split; intros H; done.
Qed.

(** X16. [Bool] returns a native boolean as it is.  A string is coerced
    to true exactly when it is one of [1 t T true TRUE True] and to
    false exactly when it is one of [0 f F false FALSE False]; a
    [json.Number] is read by its text, like a string, so the number 1 is
    true; nil is not a boolean.  Whenever the coercion fails the
    boolean returned is false. *)
Theorem Bool_coercion (composite : any -> string) :
  (forall b, Bool composite {| val := ABool b |} = (b, true)) /\
  (forall s, Bool composite {| val := AString s |} = (true, true)
             <-> In s ["1"; "t"; "T"; "true"; "TRUE"; "True"]) /\
  (forall s, Bool composite {| val := AString s |} = (false, true)
             <-> In s ["0"; "f"; "F"; "false"; "FALSE"; "False"]) /\
  (forall n, Bool composite {| val := ANumber n |}
             = Bool composite {| val := AString n |}) /\
  Bool composite {| val := ANil |} = (false, false) /\
  (forall v, snd (Bool composite v) = false -> fst (Bool composite v) = false).
Proof.
  split; [done|]. split; [|split; [|split; [done|split; [done|]]]].
  - intros s. rewrite <- ParseBool_true. unfold Bool. cbn.
    destruct (strconv.ParseBool s) as [[]|]; split; intros H; done.
  - intros s. rewrite <- ParseBool_false. unfold Bool. cbn.
    destruct (strconv.ParseBool s) as [[]|]; split; intros H; done.
  - intros [a]. unfold Bool. cbn [val].
    destruct a; try done; by destruct (strconv.ParseBool _).
Qed.

Lemma Bool_coercion_witness :
  Bool (fun _ => "") {| val := AString "True" |} = (true, true) /\
  Bool (fun _ => "") {| val := ANumber "0" |} = (false, true) /\
  fst (Bool (fun _ => "") {| val := AString "notabool" |}) = false.
Proof.
  destruct (Bool_coercion (fun _ => "")) as (_ & Htrue & Hfalse & Hnum & _ & Hfail).
  split; [|split].
  - apply Htrue. cbn. tauto.
  - rewrite Hnum. apply Hfalse. cbn. tauto.
  - apply Hfail. reflexivity.
Defined.

Lemma parseUintLoop_nonneg (s : string) (n un : Z) :
  (0 <= n)%Z -> strconv.parseUintLoop s n = inl un -> (0 <= un)%Z.
Proof.
  revert n. induction s as [|c s IH]; intros n Hn; cbn [strconv.parseUintLoop].
  - by intros [= <-].
  - destruct (_ && _) eqn:Hdigit; [|done].
    apply andb_true_iff in Hdigit as [Hlo _]. apply Z.leb_le in Hlo.
    destruct (_ <=? n)%Z; [done|]. destruct (_ <? _)%Z; [done|].
    apply IH. lia.
Qed.

Lemma ParseInt_range (s : string) (i : Z) :
  strconv.ParseInt s = inl i -> (- 2 ^ 63 <= i < 2 ^ 63)%Z.
Proof.
  unfold strconv.ParseInt. destruct s as [|c rest]; [done|]. cbv zeta.
  match goal with |- context [strconv.ParseUint ?d] => set (digits := d) end.
  destruct (strconv.ParseUint digits) as [un|[]] eqn:Hun; [|done|done].
  assert (0 <= un)%Z as Hpos.
  { unfold strconv.ParseUint in Hun. destruct digits; [done|].
    by eapply parseUintLoop_nonneg in Hun. }
  destruct (Ascii.eqb c "-"); cbn [negb andb].
  - destruct (Z.ltb_spec (2 ^ 63) un); [done|]. intros [= <-]. lia.
  - destruct (Z.leb_spec (2 ^ 63) un); [done|]. intros [= <-]. lia.
Qed.

(** A byte that is no decimal digit makes the digit loop fail. *)
Lemma parseUintLoop_non_digit (s : string) (c : ascii) (n : Z) :
  In c (list_ascii_of_string s) ->
  (48 <=? Z.of_nat (nat_of_ascii c))%Z && (Z.of_nat (nat_of_ascii c) <=? 57)%Z = false ->
  exists e, strconv.parseUintLoop s n = inr e.
Proof.
  intros Hin Hc. revert n.
  induction s as [|a s IH]; intros n; [done|]. cbn [strconv.parseUintLoop].
  destruct Hin as [->|Hin].
  - rewrite Hc. by eexists.
  - destruct ((48 <=? Z.of_nat (nat_of_ascii a))%Z && _); [|by eexists].
    destruct (_ <=? n)%Z; [by eexists|].
    destruct (_ <? _)%Z; [by eexists|]. by apply IH.
Qed.

(** X17. [Int64] fails with 0 or succeeds with a number inside the
    64-bit signed range.  A [json.Number] and a string holding the same
    text give the same result; the empty string, a boolean and nil are
    no integers; and a text holding any byte other than a decimal digit
    or a sign, such as the point of a fraction, is refused. *)
Theorem Int64_coercion (composite : any -> string) :
  (forall v, snd (Int64 composite v) = false -> fst (Int64 composite v) = 0%Z) /\
  (forall v, snd (Int64 composite v) = true ->
             (- 2 ^ 63 <= fst (Int64 composite v) < 2 ^ 63)%Z) /\
  (forall n, Int64 composite {| val := ANumber n |}
             = Int64 composite {| val := AString n |}) /\
  Int64 composite {| val := AString "" |} = (0%Z, false) /\
  (forall b, Int64 composite {| val := ABool b |} = (0%Z, false)) /\
  Int64 composite {| val := ANil |} = (0%Z, false) /\
  (forall s c, In c (list_ascii_of_string s) ->
     (48 <=? Z.of_nat (nat_of_ascii c))%Z && (Z.of_nat (nat_of_ascii c) <=? 57)%Z = false ->
     c <> "+"%char -> c <> "-"%char ->
     Int64 composite {| val := AString s |} = (0%Z, false)).
Proof.
  assert (forall v, exists s, Int64 composite v
            = match strconv.ParseInt s with inr _ => (0%Z, false) | inl i => (i, true) end)
    as Hform.
  { intros [a]. unfold Int64. cbn [val]. destruct a; by eexists. }
  split; [|split; [|split; [done|split; [done|split; [by intros []|split; [done|]]]]]].
  - intros v. destruct (Hform v) as (s & ->). by destruct (strconv.ParseInt s).
  - intros v. destruct (Hform v) as (s & ->).
    destruct (strconv.ParseInt s) as [i|] eqn:Hs; [|done].
    intros _. by apply ParseInt_range in Hs.
  - intros s c Hin Hc Hplus Hminus. unfold Int64. cbn [val Sprintf_s].
    unfold strconv.ParseInt. destruct s as [|a rest]; [done|]. cbv zeta.
    match goal with |- context [strconv.ParseUint ?d] => set (digits := d) end.
    assert (In c (list_ascii_of_string digits)) as Hin'.
    { subst digits. destruct (Ascii.eqb_spec a "+") as [->|_]; cbn [orb].
      - destruct Hin as [Heq|Hin]; [by destruct Hplus|done].
      - destruct (Ascii.eqb_spec a "-") as [->|_]; [|done].
        destruct Hin as [Heq|Hin]; [by destruct Hminus|done]. }
    unfold strconv.ParseUint. destruct digits as [|d digits']; [done|].
    destruct (parseUintLoop_non_digit _ c 0 Hin' Hc) as (e & ->). by destruct e.
Qed.

Lemma Int64_coercion_witness :
  Int64 (fun _ => "") {| val := AString "4.2" |} = (0%Z, false) /\
  (- 2 ^ 63 <= fst (Int64 (fun _ => "") {| val := ANumber "-42" |}) < 2 ^ 63)%Z /\
  Int64 (fun _ => "") {| val := ANumber "-42" |} = ((-42)%Z, true) /\
  Int64 (fun _ => "") {| val := AString "9223372036854775808" |} = (0%Z, false).
Proof.
  destruct (Int64_coercion (fun _ => "")) as (_ & Hrange & _ & _ & _ & _ & Hbyte).
  split; [|split; [|split]].
  - apply (Hbyte "4.2" "."%char); [cbn; tauto|reflexivity|discriminate|discriminate].
  - apply Hrange. reflexivity.
  - reflexivity.
  - reflexivity.
Defined.

(** X18. [Map] succeeds exactly when [Data] does, on a wrapped mapping.
    The result then has the same keys as the mapping, with every string
    entry kept verbatim and every [json.Number] entry as its text;
    otherwise the result is the empty map and false. *)
Theorem Map_projection (composite : any -> string) (v : value) :
  snd (Map composite v) = snd (Data v) /\
  (forall ma, val v = AMap ma ->
     exists ms, Map composite v = (ms, true) /\
       dom ms = dom ma /\
       (forall k s, ma !! k = Some (AString s) -> ms !! k = Some s) /\
       (forall k n, ma !! k = Some (ANumber n) -> ms !! k = Some n)) /\
  ((forall ma, val v <> AMap ma) -> Map composite v = (∅, false)).
Proof.
  unfold Map, Data. split; [by destruct (val v)|]. split.
  - intros ma ->. eexists. split; [reflexivity|]. split; [apply dom_fmap_L|].
    split; intros k x Hk; by rewrite lookup_fmap, Hk.
  - intros Hno. destruct (val v) as [| | | |ma|]; try done. by destruct (Hno ma).
Qed.

Lemma Map_projection_witness :
  let v := {| val := AMap {[ "three" := AString "tres"; "four" := ANumber "4" ]} |} in
  exists ms, Map (fun _ => "") v = (ms, true) /\
             ms !! "three" = Some "tres" /\ ms !! "four" = Some "4" /\
             Map (fun _ => "") {| val := AString "mm" |} = (∅, false).
Proof.
  intros v.
  destruct (Map_projection (fun _ => "") v) as (_ & Hmap & _).
  destruct (Hmap _ eq_refl) as (ms & HMap & _ & Hstr & Hnum).
  exists ms. split; [exact HMap|]. split; [|split].
  - apply Hstr. reflexivity.
  - apply Hnum. reflexivity.
  - apply (Map_projection (fun _ => "") {| val := AString "mm" |}).
    intros ma Habs. discriminate Habs.
Defined.

(** X19. [StringSlice] succeeds exactly on a wrapped sequence.  The
    result then has the sequence's length and order, with every string
    element kept verbatim at its index and every [json.Number] element
    as its text; otherwise the result is the empty slice and false. *)
Theorem StringSlice_projection (composite : any -> string) (v : value) :
  (forall vals, val v = ASlice vals ->
     exists strs, StringSlice composite v = (strs, true) /\
       length strs = length vals /\
       (forall i s, vals !! i = Some (AString s) -> strs !! i = Some s) /\
       (forall i n, vals !! i = Some (ANumber n) -> strs !! i = Some n)) /\
  ((forall vals, val v <> ASlice vals) -> StringSlice composite v = ([], false)).
Proof.
  unfold StringSlice. split.
  - intros vals ->. eexists. split; [reflexivity|]. split; [apply length_fmap|].
    split; intros i x Hi; by rewrite list_lookup_fmap, Hi.
  - intros Hno. destruct (val v) as [| | | | |vals]; try done. by destruct (Hno vals).
Qed.

Lemma StringSlice_projection_witness :
  let v := {| val := ASlice [AString "one"; ANumber "2"; AString "three"] |} in
  exists strs, StringSlice (fun _ => "") v = (strs, true) /\
               length strs = 3%nat /\ strs !! 2%nat = Some "three" /\
               StringSlice (fun _ => "") {| val := AString "ll" |} = ([], false).
Proof.
  intros v.
  destruct (StringSlice_projection (fun _ => "") v) as (Hslice & _).
  destruct (Hslice _ eq_refl) as (strs & HSlice & Hlen & Hstr & _).
  exists strs. split; [exact HSlice|]. split; [exact Hlen|]. split.
  - apply Hstr. reflexivity.
  - apply (StringSlice_projection (fun _ => "") {| val := AString "ll" |}).
    intros vals Habs. discriminate Habs.
Defined.

(** X20. The value that [GetOrDefault] returns with the flag false reads
    back as the fallback: [String] gives the fallback text, [Raw] the
    fallback as a string, and [Data] fails on it. *)
Theorem GetOrDefault_fallback_reads_back (upper : string -> string) (composite : any -> string) env
    (c : confyImpl) ctx (path fallback : string) (v : value) :
  fst (GetOrDefault upper env c ctx path fallback) = Return (Some v, false) ->
  String_ composite v = fallback /\ Raw v = AString fallback /\
  Data v = (∅, false).
Proof.
  unfold GetOrDefault.
  destruct (Get upper env c ctx path) as [[[r [e|]]|msg] c']; cbn [fst]; try done.
  by intros [= <-].
Qed.

Lemma GetOrDefault_fallback_reads_back_witness :
  exists v,
    fst (GetOrDefault Fixture.upper ∅ (New Fixture.vault 0 false) Fixture.ctx "not/here#never"
        "foo")
      = Return (Some v, false) /\
    String_ (fun _ => "") v = "foo".
Proof.
  exists {| val := AString "foo" |}. split; [reflexivity|].
  apply (GetOrDefault_fallback_reads_back Fixture.upper (fun _ => "") ∅ (New Fixture.vault 0 false)
           Fixture.ctx "not/here#never" "foo").
  reflexivity.
Defined.

(** ** NewVaultClient *)

(** X21. [NewVaultClient] keeps the caller's options, in order and
    first, and adds one source of credentials after them.  When
    [VAULT_AUTH_METHOD] is exactly ["jwt"] it adds role, auth path and
    auth method from the environment and no token; otherwise it adds the
    token of a non-empty [VAULT_TOKEN], and only without one the token
    file [$HOME/.vault-token].  It panics exactly when the SDK's
    constructor refuses these options. *)
Theorem NewVaultClient_options env
    (NewClientWithOptions : list ClientOption -> vaultClient + string)
    (opts : list ClientOption) :
  (exists added, clientOptions env opts = (opts ++ added)%list /\
     (os_Getenv env "VAULT_AUTH_METHOD" = "jwt" ->
        added = [ClientRole (os_Getenv env "VAULT_ROLE");
                 ClientAuthPath (os_Getenv env "VAULT_PATH");
                 ClientAuthMethod "jwt"]) /\
     (os_Getenv env "VAULT_AUTH_METHOD" <> "jwt" ->
        os_Getenv env "VAULT_TOKEN" <> "" ->
        added = [ClientToken (os_Getenv env "VAULT_TOKEN")]) /\
     (os_Getenv env "VAULT_AUTH_METHOD" <> "jwt" ->
        os_Getenv env "VAULT_TOKEN" = "" ->
        added = [ClientTokenPath (os_Getenv env "HOME" +:+ "/.vault-token")])) /\
  (forall err, NewClientWithOptions (clientOptions env opts) = inr err <->
               NewVaultClient env NewClientWithOptions opts = Panic err) /\
  (forall cl, NewClientWithOptions (clientOptions env opts) = inl cl <->
              NewVaultClient env NewClientWithOptions opts = Return cl).
Proof.
  split.
  - unfold clientOptions. cbn [app].
    destruct (String.eqb_spec (os_Getenv env "VAULT_AUTH_METHOD") "jwt") as [Hjwt|Hjwt];
      cbn [negb].
    + eexists. split; [reflexivity|]. rewrite Hjwt. by repeat split.
    + destruct (String.eqb_spec (os_Getenv env "VAULT_TOKEN") "") as [Htok|Htok];
        cbn [negb]; eexists; (split; [reflexivity|]); by repeat split.
  - unfold NewVaultClient.
    destruct (NewClientWithOptions _) as [cl|err]; split; intros x; split;
      intros H; by inversion H.
Qed.

Lemma NewVaultClient_options_witness :
  let env : gmap string string :=
    {[ "VAULT_AUTH_METHOD" := "JWT"; "VAULT_TOKEN" := "myroot"; "HOME" := "/root" ]} in
  clientOptions env [ClientOtherOption 0] = [ClientOtherOption 0; ClientToken "myroot"] /\
  clientOptions ∅ [] = [ClientTokenPath "/.vault-token"] /\
  clientOptions {[ "VAULT_AUTH_METHOD" := "jwt" ]} []
    = [ClientRole ""; ClientAuthPath ""; ClientAuthMethod "jwt"].
Proof.
  intros env. split; [|split].
  - destruct (NewVaultClient_options env (fun _ => inr "") [ClientOtherOption 0])
      as ((added & -> & _ & Htoken & _) & _).
    rewrite Htoken; [reflexivity|discriminate|discriminate].
  - destruct (NewVaultClient_options ∅ (fun _ => inr "") [])
      as ((added & -> & _ & _ & Hfile) & _).
    rewrite Hfile; [reflexivity|discriminate|reflexivity].
  - destruct (NewVaultClient_options {[ "VAULT_AUTH_METHOD" := "jwt" ]}
                (fun _ => inr "") [])
      as ((added & -> & Hjwt & _) & _).
    rewrite Hjwt; reflexivity.
Defined.

(** ** Whole documents *)

(** X22. When [Get] on a path without field name succeeds past the
    override, the value it returns wraps a whole document: [Data] gives
    that document and true, and it is the very document the cache now
    holds under the path's key. *)
Theorem Get_whole_document (upper : string -> string)
    env (c : confyImpl) ctx (p key : string) (v : value) :
  override upper c env (strings.TrimPrefix p "secret/") = None ->
  resolve p = Some (key, "") ->
  fst (Get upper env c ctx p) = Return (Some v, None) ->
  exists doc, Data v = (doc, true) /\ Raw v = AMap doc /\
              items (cache (snd (Get upper env c ctx p))) !! key = Some doc.
Proof.
  intros Hov Hres. rewrite (Get_through_cache upper _ _ _ _ _ _ Hov Hres). cbv zeta.
  destruct (item _) as [doc|] eqn:Hitem.
  - cbn [fst snd project]. intros [= <-]. exists doc.
    split; [done|]. split; [done|]. by apply cache_Get_item_cached.
  - by destruct (errBucket _).
Qed.

Lemma Get_whole_document_witness :
  let c := New Fixture.vault 0 false in
  exists doc, Data {| val := AMap Fixture.app |} = (doc, true) /\
              items (cache (snd (Get Fixture.upper ∅ c Fixture.ctx "secret/test/app")))
                !! "test/app"
                = Some doc /\
              doc !! "user" = Some (AString "fake-user").
Proof.
  intros c.
  destruct (Get_whole_document Fixture.upper ∅ c Fixture.ctx "secret/test/app" "test/app"
              {| val := AMap Fixture.app |} eq_refl eq_refl eq_refl)
    as (doc & HData & HRaw & Hcached).
  exists doc. split; [exact HData|]. split; [exact Hcached|].
  injection HRaw as <-. reflexivity.
Defined.
